(** * pyscript [state.py]: state-variable change notification

    A shallow embedding of class [State] of
    [custom_components/pyscript/state.py]: the notify registry
    ([self.notify]), the last-value cache ([self.notify_var_last]), the
    delivery loop of [update], and the thin accessors [set], [set_new] and
    [completions] that talk to Home Assistant's state machine.

    Conventions of the embedding
    - a Python [str] is a [string]; the separator ["."] is one ASCII byte and
      never occurs inside a multi-byte character, so [split], [count] and
      [rfind] and [startswith] on the bytes of UTF-8 text agree with
      Python's on code points; [str.lower] folds by Unicode rules and is a
      parameter of [completions]; iteration over a string is modelled for
      ASCII text;
    - every dict is a [gmap]: [d[k] = v] is insert, [del d[k]] is delete,
      [d.update(e)] is the union that prefers [e].  The one dict that is
      iterated with an effect is the per-call accumulator of [update]; its
      items are taken with [map_to_list], so the puts of one call come out in
      that order rather than in Python's insertion order.  Each queue object
      keeps its own messages, so what a queue receives does not depend on it;
    - a queue is known by its identity only; [await queue.put(m)] is an
      entry [(queue, m)] of the list of puts that [update] returns;
    - [hass] and [valid_entity_id] belong to Home Assistant and are taken as
      parameters. *)

From stdpp Require Import base option list strings gmap fin_maps.
From Stdlib Require Import Ascii.

(** ** Python string primitives used by [state.py] *)

Module PyStr.

(** The separator of variable names. *)
Definition dot : ascii := "."%char.

(** [s.split(".")]: one more part than there are separators. *)
Fixpoint split (s : string) : list string :=
  match s with
  | EmptyString => [EmptyString]
  | String c s' =>
      if Ascii.eqb c dot then EmptyString :: split s'
      else match split s' with
           | p :: ps => String c p :: ps
           | [] => [String c EmptyString]
           end
  end.

(** [s.count(".")]. *)
Fixpoint count (s : string) : nat :=
  match s with
  | EmptyString => 0
  | String c s' => if Ascii.eqb c dot then S (count s') else count s'
  end.

(** [s.rfind(".")]; [None] stands for Python's [-1]. *)
Fixpoint rfind (s : string) : option nat :=
  match s with
  | EmptyString => None
  | String c s' =>
      match rfind s' with
      | Some i => Some (S i)
      | None => if Ascii.eqb c dot then Some 0 else None
      end
  end.

(** The slice [s[0:n]]. *)
Fixpoint take (n : nat) (s : string) : string :=
  match n, s with
  | S n', String c s' => String c (take n' s')
  | _, _ => EmptyString
  end.

(** The slice [s[n:]]. *)
Fixpoint drop (n : nat) (s : string) : string :=
  match n, s with
  | S n', String _ s' => drop n' s'
  | _, _ => s
  end.

(** One byte with the ASCII letters ["A".."Z"] folded to ["a".."z"]. *)
Definition lower_ascii (c : ascii) : ascii :=
  let n := nat_of_ascii c in
  if (65 <=? n) && (n <=? 90) then ascii_of_nat (n + 32) else c.

(** The ASCII letters of a string folded to lower case, every other byte left
    as it is.  On ASCII text this is [str.lower]; on other text Python folds
    by Unicode rules, so [completions] takes [str.lower] as a parameter, and
    [ascii_lower] stands in for it on ASCII inputs only. *)
Fixpoint ascii_lower (s : string) : string :=
  match s with
  | EmptyString => EmptyString
  | String c s' => String (lower_ascii c) (ascii_lower s')
  end.

(** [s.startswith(prefix)]. *)
Fixpoint startswith (s prefix : string) : bool :=
  match prefix, s with
  | EmptyString, _ => true
  | String p prefix', String c s' => Ascii.eqb c p && startswith s' prefix'
  | String _ _, EmptyString => false
  end.

(** [for ch in s]: the characters of [s], each a one-character string. *)
Fixpoint chars (s : string) : list string :=
  match s with
  | EmptyString => []
  | String c s' => String c EmptyString :: chars s'
  end.

(** [s.rsplit(".", maxsplit=1)] of a string with a separator: the text before
    the last separator and the text after it.  [None] when there is no
    separator, where Python returns the one-element list [[s]]. *)
Definition rsplit1 (s : string) : option (string * string) :=
  match rfind s with
  | Some i => Some (take i s, drop (S i) s)
  | None => None
  end.

(** [".".join(parts)], the inverse of [split]. *)
Fixpoint join (parts : list string) : string :=
  match parts with
  | [] => EmptyString
  | p :: ps =>
      match ps with
      | [] => p
      | _ :: _ => p +:+ String dot (join ps)
      end
  end.

End PyStr.

(** ** Class [State] *)

Module State.

(** What a consumer registered: [notify_add] stores its [var_names] argument
    as it came, a list of names or one bare string; [notify_var_get] also
    accepts [None]. *)
Inductive var_names :=
  | NamesList (names : list string)
  | NamesStr (name : string)
  | NamesNone.

(** A queue object, known by identity. *)
Abbreviation queue := nat (only parsing).

(** [f"{parts[0]}.{parts[1]}"] under the guard
    [len(parts) != 2 and len(parts) != 3]: [None] is the [continue]. *)
Definition state_var_name (var_name : string) : option string :=
  match PyStr.split var_name with
  | [p0; p1] | [p0; p1; _] => Some (p0 +:+ "." +:+ p1)
  | _ => None
  end.

(** [var_names if isinstance(var_names, list) else [var_names]], the names the
    loops of [notify_add] and [notify_del] go through.  With [None] the loop
    variable is [None] and [var_name.split] raises [AttributeError]: no list. *)
Definition loop_names (vn : var_names) : option (list string) :=
  match vn with
  | NamesList names => Some names
  | NamesStr name => Some [name]
  | NamesNone => None
  end.

(** The names [notify_var_get] goes through:
    [var_names if var_names is not None else []]; a string yields its
    characters. *)
Definition lookup_names (vn : var_names) : list string :=
  match vn with
  | NamesList names => names
  | NamesStr name => PyStr.chars name
  | NamesNone => []
  end.

(** One turn of the loop of [notify_add] on the registry [self.notify]. *)
Definition notify_add_step (vn : var_names) (q : queue)
    (reg : gmap string (gmap queue var_names)) (var_name : string)
    : gmap string (gmap queue var_names) :=
  match state_var_name var_name with
  | None => reg
  | Some key =>
      let reg1 := match reg !! key with
                  | None => <[key := ∅]> reg
                  | Some _ => reg
                  end in
      <[key := <[q := vn]> (default ∅ (reg1 !! key))]> reg1
  end.

(** The loop of [notify_del]; it leaves by [return] at the first valid name
    whose key, or whose queue under that key, is not registered. *)
Fixpoint notify_del_loop (q : queue) (names : list string)
    (reg : gmap string (gmap queue var_names))
    : gmap string (gmap queue var_names) :=
  match names with
  | [] => reg
  | var_name :: rest =>
      match state_var_name var_name with
      | None => notify_del_loop q rest reg
      | Some key =>
          match reg !! key with
          | None => reg
          | Some consumers =>
              match consumers !! q with
              | None => reg
              | Some _ =>
                  notify_del_loop q rest (<[key := delete q consumers]> reg)
              end
          end
      end
  end.

Section state.
Context {Val Ctx : Type}.

(** The two dicts of [State.__init__]. *)
Record t := mk {
  notify : gmap string (gmap queue var_names);
  notify_var_last : gmap string Val;
}.

(** [State.__init__]. *)
Definition init : t := mk ∅ ∅.

(** The message [["state", [new_vars, func_args]]] put on a queue. *)
Record message := Msg {
  msg_tag : string;
  msg_vars : gmap string Val;
  msg_ctx : Ctx;
}.

(** [notify_add(var_names, queue)]; [None] when the call raises. *)
Definition notify_add (vn : var_names) (q : queue) (st : t) : option t :=
  names ← loop_names vn;
  Some (mk (foldl (notify_add_step vn q) (notify st) names) (notify_var_last st)).

(** [notify_del(var_names, queue)]; [None] when the call raises. *)
Definition notify_del (vn : var_names) (q : queue) (st : t) : option t :=
  names ← loop_names vn;
  Some (mk (notify_del_loop q names (notify st)) (notify_var_last st)).

(** [notify_var_get(var_names)]: a fresh dict with the cached value of every
    requested name that has one. *)
Definition notify_var_get (st : t) (vn : var_names) : gmap string Val :=
  foldl (fun new_vars var_name =>
           match notify_var_last st !! var_name with
           | Some v => <[var_name := v]> new_vars
           | None => new_vars
           end) ∅ (lookup_names vn).

(** One turn of the first loop of [update], on the state and the local
    accumulator [notify]. *)
Definition update_var (sa : t * gmap queue var_names) (item : string * Val)
    : t * gmap queue var_names :=
  match notify sa.1 !! item.1 with
  | Some consumers =>
      (mk (notify sa.1) (<[item.1 := item.2]> (notify_var_last sa.1)),
       consumers ∪ sa.2)
  | None => sa
  end.

(** [update(new_vars, func_args)]: the new state and the puts, in order. *)
Definition update (new_vars : list (string * Val)) (func_args : Ctx) (st : t)
    : t * list (queue * message) :=
  let sa := foldl update_var (st, ∅) new_vars in
  (sa.1,
   (fun qv => (qv.1, Msg "state" (notify_var_get sa.1 qv.2) func_args))
     <$> map_to_list sa.2).

(** The messages put on queue [q], oldest first. *)
Definition pushed_to (q : queue) (puts : list (queue * message)) : list message :=
  (filter (fun p => p.1 = q) puts).*2.

(** The request list registered for [q] under [key], if any. *)
Definition registered (st : t) (key : string) (q : queue) : option var_names :=
  consumers ← notify st !! key; consumers !! q.

(** The request lists that the items of an inner dict hold for [q]. *)
Definition entries_for (q : queue) (consumers : gmap queue var_names)
    : list var_names :=
  (filter (fun p => p.1 = q) (map_to_list consumers)).*2.

(** Every key of the registry and of the cache is a two-part name. *)
Definition inv (st : t) : Prop :=
  (∀ key, is_Some (notify st !! key) → length (PyStr.split key) = 2) ∧
  (∀ key, is_Some (notify_var_last st !! key) → length (PyStr.split key) = 2).

(** The states the three operations lead to from [State.__init__]. *)
Inductive reachable : t → Prop :=
  | reach_init : reachable init
  | reach_add st vn q st' :
      reachable st → notify_add vn q st = Some st' → reachable st'
  | reach_del st vn q st' :
      reachable st → notify_del vn q st = Some st' → reachable st'
  | reach_update st new_vars func_args :
      reachable st → reachable (update new_vars func_args st).1.

(** *** The Home Assistant side *)

(** A [homeassistant.core.State] object, as far as [state.py] reads it. *)
Record StateObj := mkStateObj {
  entity_id : string;
  state : Val;
  attributes : gmap string Val;
}.

(** What [state.py] uses of Home Assistant: [valid_entity_id] of
    [homeassistant.core], and [hass.states.get] and [hass.states.async_all]
    of the state machine. *)
Record HomeAssistant := mkHA {
  valid_entity_id : string -> bool;
  states_get : string -> option StateObj;
  states_async_all : list StateObj;
}.

(** What a setter does: log an error and return, or call
    [hass.states.async_set]; [None] as attributes is the argument left out. *)
Inductive set_outcome :=
  | Rejected (error : string)
  | AsyncSet (entity : string) (new_state : Val)
             (attrs : option (gmap string Val)).

(** Home Assistant's [async_set] starts with [attributes = attributes or {}]:
    the attributes the entity has after the call. *)
Definition async_set_attributes (o : set_outcome) : option (gmap string Val) :=
  match o with
  | Rejected _ => None
  | AsyncSet _ _ attrs => Some (default ∅ attrs)
  end.

(** Truth value of a dict: [len(d) != 0]. *)
Definition truthy (d : gmap string Val) : bool := negb (size d =? 0).

(** [set(var_name, value, attributes=None, **kwargs)]. *)
Definition set (var_name : string) (value : Val)
    (attrs : option (gmap string Val)) (kwargs : gmap string Val) : set_outcome :=
  if negb (length (PyStr.split var_name) =? 2) then
    Rejected ("invalid variable name " +:+ var_name +:+ " (should be 'domain.entity')")
  else if from_option truthy false attrs || truthy kwargs then
    AsyncSet var_name value (Some (kwargs ∪ default ∅ attrs))
  else AsyncSet var_name value attrs.

(** [set_new(entity_id, new_state, attributes=None)], published as
    [state.set] by [register_functions]. *)
Definition set_new (ha : HomeAssistant) (eid : string) (new_state : Val)
    (attrs : option (gmap string Val)) : set_outcome :=
  if negb (valid_entity_id ha eid) then
    Rejected ("invalid entity_id " +:+ eid +:+ " (should be 'domain.entity')")
  else if from_option (fun a => negb (truthy a)) false attrs then
    AsyncSet eid new_state None
  else
    let old_attrs := from_option attributes ∅ (states_get ha eid) in
    let updated_attrs :=
      if from_option truthy false attrs then default ∅ attrs ∪ old_attrs
      else old_attrs in
    AsyncSet eid new_state (Some updated_attrs).

(** The prefix match of the specification, with both sides folded to lower
    case by [lower], Python's [str.lower]; [completions] is compared with
    it. *)
Definition spec_ci_prefix (lower : string -> string) (candidate root : string)
    : bool :=
  PyStr.startswith (lower candidate) (lower root).

(** [completions(root)], with [lower] for Python's [str.lower].  A string
    with two separators has a last one, so the branch of [rfind] finding none
    stands for no path of the source. *)
Definition completions (lower : string -> string) (ha : HomeAssistant)
    (root : string) : gset string :=
  let num_period := PyStr.count root in
  if num_period =? 2 then
    match PyStr.rfind root with
    | Some last_period =>
        let name := PyStr.take last_period root in
        match states_get ha name with
        | Some value =>
            let attr_root := PyStr.drop (S last_period) root in
            foldl (fun (words : gset string) attr_name =>
                     if PyStr.startswith (lower attr_name) attr_root
                     then words ∪ {[ name +:+ "." +:+ attr_name ]}
                     else words)
                  ∅ (elements (dom (attributes value)))
        | None => ∅
        end
    | None => ∅
    end
  else if num_period <? 2 then
    foldl (fun (words : gset string) name =>
             if PyStr.startswith (lower (entity_id name)) root
             then words ∪ {[ entity_id name ]}
             else words)
          ∅ (states_async_all ha)
  else ∅.

(** [get(var_name)]; [None] is Python's [None].  With two separators the name
    is cut at the last one, and [state and attr_name] asks for an attribute
    name that is not empty. *)
Definition get (ha : HomeAssistant) (var_name : string) : option Val :=
  let num_period := PyStr.count var_name in
  let names :=
    if num_period =? 2 then
      match PyStr.rsplit1 var_name with
      | Some (entity, attr_name) => (entity, Some attr_name)
      | None => (var_name, None)
      end
    else (var_name, None) in
  if (2 <? num_period) || negb (valid_entity_id ha names.1) then None
  else
    match states_get ha names.1 with
    | Some value =>
        match names.2 with
        | Some (String c a) => attributes value !! String c a
        | _ => Some (state value)
        end
    | None => None
    end.

(** [get_new(entity_id)], published as [state.get]. *)
Definition get_new (ha : HomeAssistant) (eid : string) : option StateObj :=
  states_get ha eid.

(** [exist(var_name)]: [value and (...)] is [None] when the entity is not
    found and a truth value otherwise.  [is_none] tells Python's [None] among
    the attribute values. *)
Definition exist (is_none : Val -> bool) (ha : HomeAssistant)
    (var_name : string) : option bool :=
  let parts := PyStr.split var_name in
  match state_var_name var_name with
  | None => Some false
  | Some key =>
      match states_get ha key with
      | None => None
      | Some value =>
          Some ((length parts =? 2)
                || from_option (fun v => negb (is_none v)) false
                     (match parts !! 2 with
                      | Some attr_name => attributes value !! attr_name
                      | None => None
                      end))
      end
  end.

End state.

Arguments t : clear implicits.
Arguments message : clear implicits.
Arguments StateObj : clear implicits.
Arguments HomeAssistant : clear implicits.
Arguments set_outcome : clear implicits.

End State.

(** * Facts *)

(** ** Strings *)

Module PyStrFacts.
Import PyStr.

Lemma split_not_nil s : split s ≠ [].
Proof.
  destruct s as [|c s]; simpl; [done|].
  destruct (Ascii.eqb c dot); [done|]. by destruct (split s).
Qed.

Lemma split_length s : length (split s) = S (count s).
Proof.
  induction s as [|c s IH]; simpl; [done|].
  destruct (Ascii.eqb c dot); simpl; [by rewrite IH|].
  destruct (split s) eqn:E; simpl in *; [done|]. exact IH.
Qed.

Lemma split_parts_no_dot s : Forall (fun p => count p = 0) (split s).
Proof.
  induction s as [|c s IH]; simpl.
  - by constructor.
  - destruct (Ascii.eqb c dot) eqn:Ec.
    + by constructor.
    + destruct (split s) as [|p ps]; inversion IH; subst;
        constructor; simpl; rewrite ?Ec; auto.
Qed.

Lemma join_split s : join (split s) = s.
Proof.
  induction s as [|c s IH]; [done|].
  pose proof (split_not_nil s) as Hne. simpl.
  destruct (Ascii.eqb c dot) eqn:Ec.
  - apply Ascii.eqb_eq in Ec as ->.
    destruct (split s) as [|p ps]; [done|].
    change (join ("" :: p :: ps)) with (String dot (join (p :: ps))).
    by rewrite IH.
  - destruct (split s) as [|p ps]; [done|].
    rewrite <- IH. by destruct ps.
Qed.

Lemma split_no_dot p : count p = 0 → split p = [p].
Proof.
  induction p as [|c p IH]; simpl; [done|].
  destruct (Ascii.eqb c dot); [done|]. intros H. by rewrite IH.
Qed.

Lemma split_app_dot p rest :
  count p = 0 → split (p +:+ String dot rest) = p :: split rest.
Proof.
  induction p as [|c p IH]; simpl.
  - intros _. change (split (String dot rest) = "" :: split rest).
    reflexivity.
  - destruct (Ascii.eqb c dot) eqn:Ec; [done|]. intros H.
    by rewrite IH.
Qed.

Lemma count_chars_dot s :
  0 < count s → "." ∈ chars s.
Proof.
  induction s as [|c s IH]; simpl; [lia|].
  destruct (Ascii.eqb c dot) eqn:Ec.
  - apply Ascii.eqb_eq in Ec as ->. intros _. by left.
  - intros H. right. auto.
Qed.

Lemma rfind_is_Some s : 0 < count s → is_Some (rfind s).
Proof.
  induction s as [|c s IH]; simpl; [lia|].
  destruct (Ascii.eqb c dot); destruct (rfind s); eauto.
Qed.

End PyStrFacts.

(** ** The subscription key of a name *)

Module KeyFacts.
Import PyStr PyStrFacts State.

Lemma state_var_name_two_part k :
  length (split k) = 2 → state_var_name k = Some k.
Proof.
  intros Hlen. unfold state_var_name. pose proof (join_split k) as Hj.
  destruct (split k) as [|p0 [|p1 [|p2 ps]]]; simplify_eq/=.
  reflexivity.
Qed.

Lemma state_var_name_three_part k p0 p1 p2 :
  split k = [p0; p1; p2] → state_var_name k = Some (p0 +:+ "." +:+ p1).
Proof. intros Hk. unfold state_var_name. by rewrite Hk. Qed.

Lemma state_var_name_None_length n :
  state_var_name n = None ↔ length (split n) ≠ 2 ∧ length (split n) ≠ 3.
Proof.
  unfold state_var_name.
  destruct (split n) as [|p0 [|p1 [|p2 [|p3 ps]]]]; simpl; split;
    intros; simplify_eq; try done; lia.
Qed.

(** Malformed is: a separator count other than 1 and 2. *)
Lemma state_var_name_None_count n :
  state_var_name n = None ↔ count n ≠ 1 ∧ count n ≠ 2.
Proof. rewrite state_var_name_None_length, split_length. lia. Qed.

Lemma state_var_name_is_Some_count n :
  is_Some (state_var_name n) ↔ count n = 1 ∨ count n = 2.
Proof.
  rewrite <- not_eq_None_Some, state_var_name_None_count. lia.
Qed.

(** A subscription key is itself a two-part name. *)
Lemma state_var_name_key_two_part n key :
  state_var_name n = Some key → length (split key) = 2.
Proof.
  unfold state_var_name. pose proof (split_parts_no_dot n) as Hnd.
  destruct (split n) as [|p0 [|p1 [|p2 [|p3 ps]]]]; intros; simplify_eq/=;
    repeat match goal with H : Forall _ (_ :: _) |- _ => inversion_clear H end;
    change (p0 +:+ "." +:+ p1) with (p0 +:+ String dot p1);
    rewrite split_app_dot, (split_no_dot p1) by done; done.
Qed.

Lemma one_char_two_part c :
  length (split (String c "")) = 2 → String c "" = ".".
Proof.
  simpl. destruct (Ascii.eqb c dot) eqn:Ec; [|done].
  by apply Ascii.eqb_eq in Ec as ->.
Qed.

End KeyFacts.

(** ** The registry: [notify_add] and [notify_del] *)

Module RegistryFacts.
Import PyStr PyStrFacts State KeyFacts.

Implicit Types (reg : gmap string (gmap nat var_names)) (q : nat).
Implicit Types (names : list string) (vn : var_names).

Lemma notify_add_step_valid vn q reg n key :
  state_var_name n = Some key →
  notify_add_step vn q reg n = <[key := <[q := vn]> (default ∅ (reg !! key))]> reg.
Proof.
  intros Hk. unfold notify_add_step. rewrite Hk.
  destruct (reg !! key) as [consumers|] eqn:Hreg; simpl.
  - by rewrite Hreg.
  - by rewrite lookup_insert_eq, insert_insert_eq.
Qed.

Lemma notify_add_step_malformed vn q reg n :
  state_var_name n = None → notify_add_step vn q reg n = reg.
Proof. intros Hk. unfold notify_add_step. by rewrite Hk. Qed.

(** What the whole loop leaves under each key. *)
Lemma notify_add_loop_lookup vn q names reg key :
  foldl (notify_add_step vn q) reg names !! key =
    if decide (key ∈ omap state_var_name names)
    then Some (<[q := vn]> (default ∅ (reg !! key)))
    else reg !! key.
Proof.
  revert reg. induction names as [|n names IH]; intros reg; simpl.
  - done.
  - rewrite IH. destruct (state_var_name n) as [key'|] eqn:Hn.
    + rewrite (notify_add_step_valid _ _ _ _ _ Hn).
      destruct (decide (key = key')) as [->|Hne].
      * rewrite lookup_insert_eq. simpl. rewrite insert_insert_eq.
        rewrite (decide_True (P := key' ∈ key' :: _)) by left.
        by case_decide.
      * rewrite lookup_insert_ne by done.
        destruct (decide (key ∈ omap state_var_name names)) as [Hin|Hin];
          [rewrite decide_True by (by right)
          |rewrite decide_False by (by apply not_elem_of_cons)]; done.
    + by rewrite (notify_add_step_malformed _ _ _ _ Hn).
Qed.

(** Names that are skipped can be left out of the list that is looped over. *)
Lemma notify_add_loop_filter vn q names reg :
  foldl (notify_add_step vn q) reg names =
  foldl (notify_add_step vn q) reg
        (filter (fun n => count n = 1 ∨ count n = 2) names).
Proof.
  revert reg. induction names as [|n names IH]; intros reg; [done|].
  rewrite filter_cons. case_decide as Hn; simpl.
  - apply IH.
  - rewrite notify_add_step_malformed; [apply IH|].
    apply state_var_name_None_count. lia.
Qed.

Lemma notify_add_loop_idemp vn q names reg :
  let reg1 := foldl (notify_add_step vn q) reg names in
  foldl (notify_add_step vn q) reg1 names = reg1.
Proof.
  intros reg1. apply map_eq. intros key. unfold reg1.
  rewrite !notify_add_loop_lookup.
  case_decide; [|done]. simpl. by rewrite insert_insert_eq.
Qed.

(** The loop of [notify_del] stops at the first miss. *)
Lemma notify_del_loop_miss q pre n post reg key :
  state_var_name n = Some key →
  (notify_del_loop q pre reg !! key ≫= (.!! q)) = None →
  notify_del_loop q (pre ++ n :: post) reg = notify_del_loop q pre reg.
Proof.
  intros Hn. revert reg. induction pre as [|m pre IH]; intros reg; simpl.
  - rewrite Hn. intros Hmiss.
    destruct (reg !! key) as [consumers|]; simpl in *; [|done].
    by rewrite Hmiss.
  - destruct (state_var_name m) as [km|]; [|apply IH].
    destruct (reg !! km) as [consumers|]; [|done].
    destruct (consumers !! q); [apply IH|done].
Qed.

(** Neither loop adds a key that is not a subscription key. *)
Lemma notify_add_loop_keys vn q names reg :
  (∀ key, is_Some (reg !! key) → length (split key) = 2) →
  ∀ key, is_Some (foldl (notify_add_step vn q) reg names !! key) →
         length (split key) = 2.
Proof.
  intros Hreg key. rewrite notify_add_loop_lookup.
  case_decide as Hin; [|apply Hreg]. intros _.
  apply list_elem_of_omap in Hin as (n & _ & Hn).
  by eapply state_var_name_key_two_part.
Qed.

Lemma notify_del_loop_keys q names reg key :
  is_Some (notify_del_loop q names reg !! key) → is_Some (reg !! key).
Proof.
  revert reg. induction names as [|n names IH]; intros reg; simpl; [done|].
  destruct (state_var_name n) as [kn|]; [|apply IH].
  destruct (reg !! kn) as [consumers|] eqn:Hkn; [|done].
  destruct (consumers !! q); [|done].
  intros H%IH. destruct (decide (kn = key)) as [<-|Hne].
  - by rewrite Hkn.
  - by rewrite lookup_insert_ne in H.
Qed.

End RegistryFacts.

(** ** Delivery: [update] and [notify_var_get] *)

Module DispatchFacts.
Import PyStr PyStrFacts State KeyFacts RegistryFacts.

Section dispatch.
Context {Val Ctx : Type}.
Implicit Types (st : State.t Val) (acc : gmap nat var_names) (q c : nat).
Implicit Types (vn : var_names) (new_vars : list (string * Val)).

(** The items of a dict with a given key: none when the key is absent, one
    when it is present. *)
Lemma filter_key_absent {A} (l : list (nat * A)) c :
  c ∉ l.*1 → filter (fun p => p.1 = c) l = [].
Proof.
  induction l as [|[q a] l IH]; [done|].
  rewrite fmap_cons, not_elem_of_cons. intros [Hne Hl]. simpl in Hne.
  rewrite filter_cons. simpl. rewrite decide_False by done. auto.
Qed.

Lemma filter_key_present {A} (l : list (nat * A)) c a :
  NoDup l.*1 → (c, a) ∈ l → filter (fun p => p.1 = c) l = [(c, a)].
Proof.
  induction l as [|[q a'] l IH]; [by intros _ ?%elem_of_nil|].
  rewrite fmap_cons, NoDup_cons. intros [Hq Hnd]. simpl in Hq.
  rewrite filter_cons. simpl. intros [Heq|Hin]%elem_of_cons.
  - simplify_eq. rewrite decide_True by done. by rewrite filter_key_absent.
  - rewrite decide_False; [by apply IH|].
    intros ->. apply Hq. apply list_elem_of_fmap. by exists (c, a).
Qed.

Lemma filter_key_map_to_list {A} (m : gmap nat A) c :
  filter (fun p => p.1 = c) (map_to_list m) =
    match m !! c with Some a => [(c, a)] | None => [] end.
Proof.
  destruct (m !! c) as [a|] eqn:Hc.
  - apply filter_key_present; [apply NoDup_fst_map_to_list|].
    by apply elem_of_map_to_list.
  - apply filter_key_absent. intros ([q a] & -> & Hin)%list_elem_of_fmap.
    apply elem_of_map_to_list in Hin. simpl in Hc. congruence.
Qed.

Lemma filter_key_fmap {A B} (g : A → B) (l : list (nat * A)) c :
  filter (fun p => p.1 = c) ((fun qa => (qa.1, g qa.2)) <$> l) =
  (fun qa => (qa.1, g qa.2)) <$> filter (fun p => p.1 = c) l.
Proof.
  induction l as [|[q a] l IH]; [done|].
  rewrite fmap_cons, !filter_cons. simpl.
  case_decide; by rewrite IH.
Qed.

Lemma items_of_key {B} (g : var_names → B) acc c :
  (filter (fun p => p.1 = c) ((fun qv => (qv.1, g qv.2)) <$> map_to_list acc)).*2
  = match acc !! c with Some vn => [g vn] | None => [] end.
Proof.
  rewrite filter_key_fmap, filter_key_map_to_list. by destruct (acc !! c).
Qed.

(** What one call of [update] puts on one queue. *)
Lemma pushed_to_update new_vars (ctx : Ctx) st c :
  let sa := foldl update_var (st, ∅) new_vars in
  pushed_to c (update new_vars ctx st).2 =
    match sa.2 !! c with
    | Some vn => [Msg "state" (notify_var_get sa.1 vn) ctx]
    | None => []
    end.
Proof.
  intros sa. unfold pushed_to, update. simpl. fold sa.
  apply (items_of_key (fun vn => Msg "state" (notify_var_get sa.1 vn) ctx)).
Qed.

Lemma update_loop_notify new_vars (sa : State.t Val * gmap nat var_names) :
  notify (foldl update_var sa new_vars).1 = notify sa.1.
Proof.
  revert sa. induction new_vars as [|[k v] new_vars IH]; intros sa; [done|].
  simpl. rewrite IH. unfold update_var. simpl.
  by destruct (notify sa.1 !! k).
Qed.

Lemma update_loop_cache_keys new_vars (sa : State.t Val * gmap nat var_names) key :
  is_Some (notify_var_last (foldl update_var sa new_vars).1 !! key) →
  is_Some (notify_var_last sa.1 !! key) ∨ is_Some (notify sa.1 !! key).
Proof.
  revert sa. induction new_vars as [|[k v] new_vars IH]; intros sa; [by left|].
  simpl. intros H%IH. revert H. unfold update_var. simpl.
  destruct (notify sa.1 !! k) as [consumers|] eqn:Hk; [|done]. simpl.
  destruct (decide (k = key)) as [<-|Hne].
  - intros _. right. by rewrite Hk.
  - by rewrite lookup_insert_ne.
Qed.

(** The mapping of a message: the cached value of every requested name that
    has one, nothing for the others. *)
Lemma notify_var_get_loop_lookup (cache : gmap string Val) (names : list string)
    (found : gmap string Val) (n : string) :
  foldl (fun (found : gmap string Val) var_name =>
           match cache !! var_name with
           | Some v => <[var_name := v]> found
           | None => found
           end) found names !! n =
  match cache !! n with
  | Some v => if decide (n ∈ names) then Some v else found !! n
  | None => found !! n
  end.
Proof.
  revert found. induction names as [|m names IH]; intros found; simpl.
  - by destruct (cache !! n).
  - rewrite IH. destruct (cache !! n) as [v|] eqn:Hn.
    + destruct (decide (n ∈ names)) as [Hin|Hin].
      * by rewrite decide_True by (by right).
      * destruct (decide (n = m)) as [->|Hne].
        -- rewrite decide_True by left. by rewrite Hn, lookup_insert_eq.
        -- rewrite decide_False by (by apply not_elem_of_cons).
           destruct (cache !! m); [by rewrite lookup_insert_ne|done].
    + destruct (cache !! m) as [w|] eqn:Hm; [|done].
      rewrite lookup_insert_ne; [done|congruence].
Qed.

Lemma notify_var_get_lookup st vn n :
  notify_var_get st vn !! n =
    if decide (n ∈ lookup_names vn) then notify_var_last st !! n else None.
Proof.
  unfold notify_var_get. rewrite notify_var_get_loop_lookup, lookup_empty.
  destruct (notify_var_last st !! n); by case_decide.
Qed.

Lemma notify_var_get_one st k v :
  notify_var_last st !! k = Some v →
  notify_var_get st (NamesList [k]) = {[k := v]}.
Proof. intros Hk. unfold notify_var_get. simpl. by rewrite Hk. Qed.

Lemma notify_var_get_two st k1 k2 v1 v2 :
  notify_var_last st !! k1 = Some v1 → notify_var_last st !! k2 = Some v2 →
  notify_var_get st (NamesList [k1; k2]) = {[k1 := v1; k2 := v2]}.
Proof.
  intros H1 H2. apply map_eq. intros n. rewrite notify_var_get_lookup. simpl.
  destruct (decide (n = k1)) as [->|Hn1].
  - rewrite decide_True by left. by rewrite lookup_insert_eq.
  - rewrite lookup_insert_ne by done. destruct (decide (n = k2)) as [->|Hn2].
    + rewrite decide_True by (rewrite !elem_of_cons; auto).
      by rewrite lookup_singleton_eq.
    + rewrite lookup_singleton_ne by done.
      apply decide_False. rewrite !not_elem_of_cons.
      split_and!; [done..|apply not_elem_of_nil].
Qed.

(** A bare string is looked up character by character; of one-character
    names only ["."] can be in the cache. *)
Lemma chars_elem s n : n ∈ chars s → ∃ ch, n = String ch "".
Proof.
  induction s as [|ch s IH]; simpl; [by intros ?%elem_of_nil|].
  intros [->|Hin]%elem_of_cons; eauto.
Qed.

Lemma notify_var_get_bare_string st s :
  (∀ key, is_Some (notify_var_last st !! key) → length (split key) = 2) →
  0 < count s →
  notify_var_get st (NamesStr s) =
    match notify_var_last st !! "." with
    | Some w => {["." := w]}
    | None => ∅
    end.
Proof.
  intros Hcache Hdot. apply map_eq. intros n. rewrite notify_var_get_lookup.
  simpl. destruct (decide (n = ".")) as [->|Hne].
  - rewrite decide_True by by apply count_chars_dot.
    destruct (notify_var_last st !! "."); [by rewrite lookup_singleton_eq|done].
  - assert ((if decide (n ∈ chars s) then notify_var_last st !! n else None) = None)
      as ->.
    { case_decide as Hin; [|done]. apply chars_elem in Hin as [ch ->].
      apply eq_None_not_Some. intros H%Hcache. by apply one_char_two_part in H. }
    destruct (notify_var_last st !! "."); [by rewrite lookup_singleton_ne|done].
Qed.

(** *** The invariant *)

Lemma inv_init : inv (@init Val).
Proof. split; intros key; simpl; rewrite lookup_empty; by intros [? ?]. Qed.

Lemma inv_notify_add vn q st st' :
  inv st → notify_add vn q st = Some st' → inv st'.
Proof.
  intros [Hreg Hcache]. unfold notify_add.
  destruct (loop_names vn) as [names|]; [|done]. simpl. intros [= <-].
  split; simpl; [|done]. by apply notify_add_loop_keys.
Qed.

Lemma inv_notify_del vn q st st' :
  inv st → notify_del vn q st = Some st' → inv st'.
Proof.
  intros [Hreg Hcache]. unfold notify_del.
  destruct (loop_names vn) as [names|]; [|done]. simpl. intros [= <-].
  split; simpl; [|done]. intros key H%notify_del_loop_keys. auto.
Qed.

Lemma inv_update new_vars (ctx : Ctx) st : inv st → inv (update new_vars ctx st).1.
Proof.
  intros [Hreg Hcache]. unfold update. simpl. split.
  - intros key. rewrite update_loop_notify. apply Hreg.
  - intros key [H|H]%update_loop_cache_keys; auto.
Qed.

Lemma reachable_inv st : reachable (Ctx := Ctx) st → inv st.
Proof.
  induction 1; eauto using inv_init, inv_notify_add, inv_notify_del, inv_update.
Qed.

End dispatch.
End DispatchFacts.

(** * The dispatcher: registration, delivery, removal *)

Module DispatchSpec.
Import PyStr PyStrFacts State KeyFacts RegistryFacts DispatchFacts.

Section dispatch_spec.
Context {Val Ctx : Type}.
Implicit Types (st : State.t Val) (q c : nat) (vn : var_names).
Implicit Types (v : Val) (ctx : Ctx) (k key n : string).

(** After [notify_add], every valid name of the call has the queue
    registered under its key, with the whole argument as request list. *)
Lemma notify_add_lookup vn names q st st1 n key :
  notify_add vn q st = Some st1 → loop_names vn = Some names →
  n ∈ names → state_var_name n = Some key →
  notify st1 !! key = Some (<[q := vn]> (default ∅ (notify st !! key))).
Proof.
  unfold notify_add. intros Hadd Hnames Hin Hn. rewrite Hnames in Hadd.
  simpl in Hadd. injection Hadd as <-. simpl.
  rewrite notify_add_loop_lookup. apply decide_True.
  apply list_elem_of_omap. eauto.
Qed.

Lemma notify_add_registered vn names q st st1 n key :
  notify_add vn q st = Some st1 → loop_names vn = Some names →
  n ∈ names → state_var_name n = Some key →
  registered st1 key q = Some vn.
Proof.
  intros. unfold registered. erewrite notify_add_lookup by done.
  simpl. apply lookup_insert_eq.
Qed.

(** [update] of a single variable. *)
Lemma update_one_hit k v ctx st consumers :
  notify st !! k = Some consumers →
  (update [(k, v)] ctx st).1 = mk (notify st) (<[k := v]> (notify_var_last st)).
Proof. intros Hk. unfold update, update_var. simpl. by rewrite Hk. Qed.

Lemma update_one_miss k v ctx st :
  notify st !! k = None → update [(k, v)] ctx st = (st, []).
Proof.
  intros Hk. unfold update, update_var. simpl. rewrite Hk. simpl.
  by rewrite map_to_list_empty.
Qed.

Lemma pushed_to_update_one k v ctx st consumers c :
  notify st !! k = Some consumers →
  pushed_to c (update [(k, v)] ctx st).2 =
    match consumers !! c with
    | Some vn =>
        [Msg "state"
             (notify_var_get (mk (notify st) (<[k := v]> (notify_var_last st))) vn)
             ctx]
    | None => []
    end.
Proof.
  intros Hk. rewrite pushed_to_update. unfold update_var. simpl. rewrite Hk.
  simpl. by rewrite (right_id_L ∅ (∪)).
Qed.

(** C1: for a two-part name [k], after [notify_add([k], c)] the call
    [update({k: v}, ctx)] puts exactly one message on [c]; its mapping is
    [{k: v}] and its context is [ctx]. *)
Theorem add_then_update_delivers_once st k c v ctx :
  length (split k) = 2 →
  ∃ st1, notify_add (NamesList [k]) c st = Some st1 ∧
         pushed_to c (update [(k, v)] ctx st1).2 = [Msg "state" {[k := v]} ctx].
Proof.
  intros Hk%state_var_name_two_part. eexists. split; [reflexivity|].
  set (st1 := mk _ _).
  assert (notify st1 !! k = Some (<[c := NamesList [k]]> (default ∅ (notify st !! k))))
    as Hreg.
  { eapply (notify_add_lookup (NamesList [k]) [k]); [done..|by left|done]. }
  rewrite (pushed_to_update_one _ _ _ _ _ _ Hreg), lookup_insert_eq.
  by rewrite (notify_var_get_one _ k v) by apply lookup_insert_eq.
Qed.

Lemma pushed_to_update_two ka kb (va vb : Val) ctx st consa consb c vn :
  notify st !! ka = Some consa → notify st !! kb = Some consb →
  consb !! c = Some vn →
  pushed_to c (update [(ka, va); (kb, vb)] ctx st).2 =
    [Msg "state"
         (notify_var_get
            (mk (notify st) (<[kb := vb]> (<[ka := va]> (notify_var_last st)))) vn)
         ctx].
Proof.
  intros Ha Hb Hc. rewrite pushed_to_update. unfold update_var. simpl.
  rewrite Ha. simpl. rewrite Hb. simpl.
  by rewrite (lookup_union_Some_l _ _ _ _ Hc).
Qed.

(** C2: one [notify_add([k1, k2], c)] for two distinct two-part names and one
    [update({k1: v1, k2: v2}, ctx)] put exactly one message on [c], whose
    mapping has both [k1: v1] and [k2: v2]; the order of the two items in the
    batch makes no difference. *)
Theorem batch_update_delivers_one_message st k1 k2 c (v1 v2 : Val) ctx :
  length (split k1) = 2 → length (split k2) = 2 → k1 ≠ k2 →
  ∃ st1, notify_add (NamesList [k1; k2]) c st = Some st1 ∧
         pushed_to c (update [(k1, v1); (k2, v2)] ctx st1).2 =
           [Msg "state" {[k1 := v1; k2 := v2]} ctx] ∧
         pushed_to c (update [(k2, v2); (k1, v1)] ctx st1).2 =
           [Msg "state" {[k1 := v1; k2 := v2]} ctx].
Proof.
  intros Hk1%state_var_name_two_part Hk2%state_var_name_two_part Hne.
  eexists. split; [reflexivity|]. set (st1 := mk _ _).
  set (names := NamesList [k1; k2]).
  assert (∀ k, k ∈ [k1; k2] → state_var_name k = Some k →
               ∃ consumers, notify st1 !! k = Some consumers ∧
                            consumers !! c = Some names) as Hreg.
  { intros k Hin Hk. eexists. split.
    - by eapply (notify_add_lookup names [k1; k2]).
    - apply lookup_insert_eq. }
  destruct (Hreg k1) as (cons1 & Hr1 & Hc1); [by left|done|].
  destruct (Hreg k2) as (cons2 & Hr2 & Hc2); [by right; left|done|].
  clearbody st1. split.
  - rewrite (pushed_to_update_two _ _ _ _ _ _ _ _ _ _ Hr1 Hr2 Hc2).
    rewrite (notify_var_get_two _ k1 k2 v1 v2); [done|simpl..].
    + by rewrite lookup_insert_ne, lookup_insert_eq.
    + apply lookup_insert_eq.
  - rewrite (pushed_to_update_two _ _ _ _ _ _ _ _ _ _ Hr2 Hr1 Hc1).
    rewrite (notify_var_get_two _ k1 k2 v1 v2); [done|simpl..].
    + apply lookup_insert_eq.
    + by rewrite lookup_insert_ne, lookup_insert_eq.
Qed.

(** C3: after [notify_add([k], c)], [update({k: v1}, ctx1)] and
    [update({k: v2}, ctx2)], the cache maps [k] to [v2], and the message put
    on [c] by the first update carries [v1]: the first of the two messages
    [c] has received still reads [{k: v1}]. *)
Theorem last_value_and_first_message st k c (v1 v2 : Val) (ctx1 ctx2 : Ctx) :
  length (split k) = 2 →
  ∃ st1, notify_add (NamesList [k]) c st = Some st1 ∧
    let r1 := update [(k, v1)] ctx1 st1 in
    let r2 := update [(k, v2)] ctx2 r1.1 in
    notify_var_last r2.1 !! k = Some v2 ∧
    notify_var_get r2.1 (NamesList [k]) = {[k := v2]} ∧
    pushed_to c r1.2 = [Msg "state" {[k := v1]} ctx1] ∧
    pushed_to c (r1.2 ++ r2.2) =
      [Msg "state" {[k := v1]} ctx1; Msg "state" {[k := v2]} ctx2].
Proof.
  intros Hk%state_var_name_two_part. eexists. split; [reflexivity|].
  set (st1 := mk _ _).
  assert (notify st1 !! k = Some (<[c := NamesList [k]]> (default ∅ (notify st !! k))))
    as Hreg.
  { eapply (notify_add_lookup (NamesList [k]) [k]); [done..|by left|done]. }
  intros r1 r2.
  assert (pushed_to c r1.2 = [Msg "state" {[k := v1]} ctx1]) as Hp1.
  { unfold r1. rewrite (pushed_to_update_one _ _ _ _ _ _ Hreg), lookup_insert_eq.
    by rewrite (notify_var_get_one _ k v1) by apply lookup_insert_eq. }
  assert (r1.1 = mk (notify st1) (<[k := v1]> (notify_var_last st1))) as Hs1
    by apply (update_one_hit _ _ _ _ _ Hreg).
  assert (notify r1.1 !! k = Some (<[c := NamesList [k]]> (default ∅ (notify st !! k))))
    as Hreg1 by (by rewrite Hs1).
  assert (pushed_to c r2.2 = [Msg "state" {[k := v2]} ctx2]) as Hp2.
  { unfold r2. rewrite (pushed_to_update_one _ _ _ _ _ _ Hreg1), lookup_insert_eq.
    by rewrite (notify_var_get_one _ k v2) by apply lookup_insert_eq. }
  assert (notify_var_last r2.1 !! k = Some v2) as Hc2.
  { unfold r2. rewrite (update_one_hit _ _ _ _ _ Hreg1). apply lookup_insert_eq. }
  split_and!; [done|by apply notify_var_get_one|done|].
  unfold pushed_to in *. by rewrite filter_app, fmap_app, Hp1, Hp2.
Qed.

Lemma entries_for_lookup q (consumers : gmap nat var_names) vn :
  consumers !! q = Some vn → entries_for q consumers = [vn].
Proof. intros Hq. unfold entries_for. by rewrite filter_key_map_to_list, Hq. Qed.

(** No registration under the key that [update] looks at: nothing for [c]. *)
Lemma update_not_registered st k c v ctx :
  inv st → (state_var_name k ≫= fun key => registered st key c) = None →
  pushed_to c (update [(k, v)] ctx st).2 = [].
Proof.
  intros [Hreg _] Hnone. destruct (notify st !! k) as [consumers|] eqn:Hk.
  - rewrite (pushed_to_update_one _ _ _ _ _ _ Hk).
    rewrite state_var_name_two_part in Hnone by (apply Hreg; by rewrite Hk).
    simpl in Hnone. unfold registered in Hnone. rewrite Hk in Hnone.
    simpl in Hnone. by rewrite Hnone.
  - by rewrite update_one_miss.
Qed.

(** [notify_del] of the one name that [notify_add] has just registered. *)
Lemma add_then_del_not_registered st k c :
  ∃ st1 st2,
    notify_add (NamesList [k]) c st = Some st1 ∧
    notify_del (NamesList [k]) c st1 = Some st2 ∧
    (state_var_name k ≫= fun key => registered st2 key c) = None.
Proof.
  do 2 eexists. split_and!; [reflexivity..|].
  destruct (state_var_name k) as [key|] eqn:Hk; [|done]. simpl.
  unfold registered. simpl. rewrite (notify_add_step_valid _ _ _ _ _ Hk), Hk.
  rewrite lookup_insert_eq, lookup_insert_eq. simpl.
  rewrite lookup_insert_eq. simpl. apply lookup_delete_eq.
Qed.

(** C4: in a state whose keys are two-part names (every reachable state is
    one), if [c] has no registration under the subscription key of [k], then
    [update({k: v}, ctx)] puts nothing on [c]; this is the case in particular
    after [notify_add([k], c)] followed by [notify_del([k], c)]. *)
Theorem no_registration_no_delivery st k c v ctx :
  inv st →
  ((state_var_name k ≫= fun key => registered st key c) = None →
   pushed_to c (update [(k, v)] ctx st).2 = []) ∧
  (∃ st1 st2,
     notify_add (NamesList [k]) c st = Some st1 ∧
     notify_del (NamesList [k]) c st1 = Some st2 ∧
     (state_var_name k ≫= fun key => registered st2 key c) = None ∧
     pushed_to c (update [(k, v)] ctx st2).2 = []).
Proof.
  intros Hinv. split; [by apply update_not_registered|].
  destruct (add_then_del_not_registered st k c) as (st1 & st2 & Ha & Hd & Hnone).
  exists st1, st2. split_and!; [done..|].
  apply update_not_registered; [|done].
  eauto using inv_notify_add, inv_notify_del.
Qed.

(** C5: [notify_add] of a list does not raise; names whose separator count
    is neither 1 nor 2 are skipped, so that the registry is the one obtained
    from the well-formed names alone; each well-formed name is registered
    with the whole list, and no other key of the registry changes. *)
Theorem malformed_names_are_skipped (names : list string) q st :
  ∃ st1, notify_add (NamesList names) q st = Some st1 ∧
    notify st1 =
      foldl (notify_add_step (NamesList names) q) (notify st)
            (filter (fun n => count n = 1 ∨ count n = 2) names) ∧
    notify_var_last st1 = notify_var_last st ∧
    (∀ n, n ∈ names → count n = 1 ∨ count n = 2 →
          ∃ key, state_var_name n = Some key ∧
                 registered st1 key q = Some (NamesList names)) ∧
    (∀ key, (∀ n, n ∈ names → count n = 1 ∨ count n = 2 →
                  state_var_name n ≠ Some key) →
            notify st1 !! key = notify st !! key).
Proof.
  eexists. split; [reflexivity|]. simpl. split_and!.
  - apply notify_add_loop_filter.
  - done.
  - intros n Hin [key Hn]%state_var_name_is_Some_count. exists key. split; [done|].
    by eapply (notify_add_registered (NamesList names) names).
  - intros key Hkey. rewrite notify_add_loop_lookup. apply decide_False.
    intros (n & Hin & Hn)%list_elem_of_omap. apply (Hkey n); [done| |done].
    apply state_var_name_is_Some_count. by rewrite Hn.
Qed.

(** C6: when the loop of [notify_del] comes to a valid name whose key is not
    in the registry, or under whose key the queue has no entry, nothing is
    removed for it and the call returns at once: the result is the state in
    which that name was reached, whatever names follow it. *)
Theorem notify_del_stops_at_first_miss pre n post key q st st_pre :
  notify_del (NamesList pre) q st = Some st_pre →
  state_var_name n = Some key →
  registered st_pre key q = None →
  notify_del (NamesList (pre ++ n :: post)) q st = Some st_pre.
Proof.
  unfold notify_del. simpl. intros [= <-] Hn Hmiss.
  by rewrite (notify_del_loop_miss _ _ _ _ _ _ Hn Hmiss).
Qed.

(** C7: a second [notify_add] with the same arguments changes nothing; the
    queue has exactly one entry, the request list, under every key of the
    call; and registering the queue again with another request list replaces
    the entry instead of adding one. *)
Theorem notify_add_idempotent vn q st st1 :
  notify_add vn q st = Some st1 →
  notify_add vn q st1 = Some st1 ∧
  (∀ names n key,
     loop_names vn = Some names → n ∈ names → state_var_name n = Some key →
     ∃ consumers, notify st1 !! key = Some consumers ∧
                  consumers !! q = Some vn ∧ entries_for q consumers = [vn]) ∧
  (∀ vn2 st2 names2 n key,
     notify_add vn2 q st1 = Some st2 →
     loop_names vn2 = Some names2 → n ∈ names2 → state_var_name n = Some key →
     ∃ consumers, notify st2 !! key = Some consumers ∧
                  consumers !! q = Some vn2 ∧ entries_for q consumers = [vn2]).
Proof.
  intros Hadd.
  assert (∀ vn' st' st'' names n key,
            notify_add vn' q st' = Some st'' →
            loop_names vn' = Some names → n ∈ names → state_var_name n = Some key →
            ∃ consumers, notify st'' !! key = Some consumers ∧
                         consumers !! q = Some vn' ∧
                         entries_for q consumers = [vn']) as Hentry.
  { intros vn' st' st'' names n key Ha Hnames Hin Hn. eexists. split.
    - by eapply notify_add_lookup.
    - split; [apply lookup_insert_eq|].
      apply entries_for_lookup, lookup_insert_eq. }
  split_and!; [|by eauto..].
  revert Hadd. unfold notify_add. destruct (loop_names vn) as [names|]; [|done].
  simpl. intros [= <-]. simpl. by rewrite notify_add_loop_idemp.
Qed.

(** C10, as the code has it: [notify_add(k, c)] with a bare two-part string
    stores the string as request list; [update({k: v}, ctx)] then puts one
    message on [c], whose mapping is looked up character by character.  In a
    state whose keys are two-part names the only character that can be a
    cached name is ["."], so the mapping is [{".": w}] when the cache, after
    the update, has ["."] (which is the case for [k = "."]), and empty
    otherwise. *)
Theorem bare_string_registration st k c v ctx :
  inv st → length (split k) = 2 →
  ∃ st1, notify_add (NamesStr k) c st = Some st1 ∧
    registered st1 k c = Some (NamesStr k) ∧
    let sent := <[k := v]> (notify_var_last st) !! "." in
    pushed_to c (update [(k, v)] ctx st1).2 =
      [Msg "state" (from_option (fun w => {["." := w]}) ∅ sent) ctx] ∧
    (k ≠ "." → notify_var_last st !! "." = None →
     pushed_to c (update [(k, v)] ctx st1).2 = [Msg "state" ∅ ctx]).
Proof.
  intros Hinv Hlen. pose proof (state_var_name_two_part k Hlen) as Hk.
  eexists. split; [reflexivity|]. set (st1 := mk _ _).
  assert (notify_add (NamesStr k) c st = Some st1) as Hadd by done.
  assert (notify st1 !! k = Some (<[c := NamesStr k]> (default ∅ (notify st !! k))))
    as Hreg.
  { eapply (notify_add_lookup (NamesStr k) [k]); [done..|by left|done]. }
  assert (inv (update [(k, v)] ctx st1).1) as [_ Hcache].
  { eapply inv_update, inv_notify_add; done. }
  rewrite (update_one_hit _ _ _ _ _ Hreg) in Hcache. simpl in Hcache.
  assert (0 < count k) as Hdot by (rewrite split_length in Hlen; lia).
  assert (pushed_to c (update [(k, v)] ctx st1).2 =
          [Msg "state" (from_option (fun w => {["." := w]}) ∅
                          (<[k := v]> (notify_var_last st) !! ".")) ctx]) as Hpush.
  { rewrite (pushed_to_update_one _ _ _ _ _ _ Hreg), lookup_insert_eq.
    rewrite notify_var_get_bare_string by done. reflexivity. }
  split; [unfold registered; rewrite Hreg; simpl; apply lookup_insert_eq|].
  intros sent. split; [exact Hpush|].
  intros Hne Hnone. by rewrite Hpush, lookup_insert_ne, Hnone.
Qed.

End dispatch_spec.
End DispatchSpec.

(** * The accessors: [set_new], [set] and [completions] *)

Module AccessorSpec.
Import PyStr PyStrFacts State.

Section accessors.
Context {Val : Type}.
Implicit Types (ha : HomeAssistant Val) (a old : gmap string Val).
Implicit Types (eid root w : string).

Lemma truthy_false a : truthy a = false ↔ a = ∅.
Proof.
  unfold truthy. rewrite negb_false_iff, Nat.eqb_eq. apply map_size_empty_iff.
Qed.

Lemma truthy_true a : truthy a = true ↔ a ≠ ∅.
Proof. rewrite <- truthy_false. by destruct (truthy a). Qed.

(** [set] checks the shape of the name itself. *)
Lemma set_rejects_other_shapes var_name (value : Val) attrs kwargs :
  length (split var_name) ≠ 2 →
  ∃ err, set var_name value attrs kwargs = Rejected err.
Proof.
  intros Hlen. unfold set.
  rewrite (proj2 (Nat.eqb_neq _ _) Hlen). simpl. eauto.
Qed.

Lemma set_accepts_two_part var_name (value : Val) attrs kwargs :
  length (split var_name) = 2 →
  ∃ written, set var_name value attrs kwargs = AsyncSet var_name value written.
Proof.
  intros Hlen. unfold set. rewrite Hlen. simpl.
  destruct (from_option truthy false attrs || truthy kwargs); eauto.
Qed.

(** What [set] writes for a two-part name: the given attributes with the
    keyword attributes laid over them. *)
Lemma set_written var_name (value : Val) attrs kwargs :
  length (split var_name) = 2 →
  ∃ written,
    set var_name value attrs kwargs = AsyncSet var_name value written ∧
    ∀ x, default ∅ written !! x =
         match kwargs !! x with
         | Some y => Some y
         | None => default ∅ attrs !! x
         end.
Proof.
  intros Hlen. unfold set. rewrite Hlen. simpl.
  destruct (from_option truthy false attrs || truthy kwargs) eqn:Ht.
  - eexists. split; [done|]. intros x. simpl. rewrite lookup_union.
    by destruct (kwargs !! x), (default ∅ attrs !! x).
  - eexists. split; [done|]. intros x.
    apply orb_false_iff in Ht as [_ Hk%truthy_false]. subst kwargs.
    by rewrite lookup_empty.
Qed.

(** C8, as the code has it, for the two setters.  [set] counts the parts of
    its name: a name that is not two-part is rejected with a logged error
    and nothing is written; for a two-part name it writes the given
    attributes with the keyword attributes laid over them, and the
    attributes the entity has play no part.  [set_new], published as
    [state.set], asks [valid_entity_id]: a name it refuses, two-part or not,
    is rejected with a logged error and nothing is written (so every name
    that is not two-part is, when [valid_entity_id] accepts two-part names
    only); for an accepted name, non-empty attributes are merged over the
    attributes the entity has and the result is written, explicitly empty
    attributes write the state with no attributes, which leaves the entity
    without any, and attributes left out keep the existing ones. *)
Theorem setters_validate_and_write ha eid (value : Val) :
  (length (split eid) ≠ 2 →
   ∀ attrs kwargs, ∃ err, set eid value attrs kwargs = Rejected err) ∧
  (length (split eid) = 2 →
   ∀ attrs kwargs, ∃ written,
     set eid value attrs kwargs = AsyncSet eid value written ∧
     ∀ x, default ∅ written !! x =
          match kwargs !! x with
          | Some y => Some y
          | None => default ∅ attrs !! x
          end) ∧
  (valid_entity_id ha eid = false →
   ∀ attrs, ∃ err, set_new ha eid value attrs = Rejected err) ∧
  ((∀ s, valid_entity_id ha s = true → length (split s) = 2) →
   length (split eid) ≠ 2 →
   ∀ attrs, ∃ err, set_new ha eid value attrs = Rejected err) ∧
  (valid_entity_id ha eid = true →
   let old := from_option attributes ∅ (states_get ha eid) in
   (∀ a, a ≠ ∅ →
      set_new ha eid value (Some a) = AsyncSet eid value (Some (a ∪ old)) ∧
      ∀ x, (a ∪ old) !! x = match a !! x with Some y => Some y | None => old !! x end) ∧
   (set_new ha eid value (Some ∅) = AsyncSet eid value None ∧
    async_set_attributes (set_new ha eid value (Some ∅)) = Some ∅) ∧
   set_new ha eid value None = AsyncSet eid value (Some old)).
Proof.
  assert (valid_entity_id ha eid = false →
          ∀ attrs, ∃ err, set_new ha eid value attrs = Rejected err) as Hrej.
  { intros Hv attrs. unfold set_new. rewrite Hv. simpl. eauto. }
  split_and!.
  - intros Hlen attrs kwargs. by apply set_rejects_other_shapes.
  - intros Hlen attrs kwargs. by apply set_written.
  - exact Hrej.
  - intros Hvalid Hlen. apply Hrej.
    destruct (valid_entity_id ha eid) eqn:Hv; [by apply Hvalid in Hv|done].
  - intros Hv old. unfold set_new. rewrite Hv. simpl.
    rewrite (proj2 (truthy_false ∅)) by done. simpl. split_and!; try done.
    intros a Ha%truthy_true. rewrite Ha. simpl. split; [done|].
    intros x. rewrite lookup_union. by destruct (a !! x), (old !! x).
Qed.

(** *** [completions] *)

Lemma lower_ascii_idemp ch : lower_ascii (lower_ascii ch) = lower_ascii ch.
Proof. by destruct ch as [[] [] [] [] [] [] [] []]. Qed.

(** On ASCII text a prefix of a folded string is itself folded. *)
Lemma ascii_lower_prefix_closed candidate root :
  startswith (ascii_lower candidate) root = true → ascii_lower root = root.
Proof.
  revert candidate. induction root as [|p root IH]; intros candidate; [done|].
  destruct candidate as [|ch candidate]; simpl; [done|].
  intros [Hch Hrest]%andb_true_iff. apply Ascii.eqb_eq in Hch as <-.
  by rewrite lower_ascii_idemp, (IH _ Hrest).
Qed.

(** The words collected by one of the loops of [completions]. *)
Lemma collect_words {A} (test : A → bool) (word : A → string) (l : list A)
    (words : gset string) w :
  w ∈ foldl (fun (words : gset string) x =>
               if test x then words ∪ {[ word x ]} else words) words l
  ↔ w ∈ words ∨ ∃ x, x ∈ l ∧ test x = true ∧ w = word x.
Proof.
  revert words. induction l as [|x l IH]; intros words; simpl.
  - split; [by left|]. by intros [?|(x & ?%elem_of_nil & _)].
  - rewrite IH. split.
    + intros [Hw|(y & Hy & Hty & ->)].
      * destruct (test x) eqn:Hx; [|by left].
        apply elem_of_union in Hw as [?|Hw%elem_of_singleton]; [by left|].
        right. exists x. split; [by left|done].
      * right. exists y. split; [by right|done].
    + intros [Hw|(y & [->|Hy]%elem_of_cons & Hty & ->)].
      * left. destruct (test x); [|done]. apply elem_of_union. by left.
      * left. rewrite Hty. apply elem_of_union. right. by apply elem_of_singleton.
      * right. by exists y.
Qed.

Lemma completions_elem (lower : string → string) ha root w :
  w ∈ completions lower ha root ↔
    (count root < 2 ∧
     ∃ s, s ∈ states_async_all ha ∧
          startswith (lower (entity_id s)) root = true ∧ w = entity_id s) ∨
    (count root = 2 ∧
     ∃ i value attr,
       rfind root = Some i ∧ states_get ha (take i root) = Some value ∧
       is_Some (attributes value !! attr) ∧
       startswith (lower attr) (drop (S i) root) = true ∧
       w = take i root +:+ "." +:+ attr).
Proof.
  unfold completions. destruct (count root =? 2) eqn:H2.
  - apply Nat.eqb_eq in H2. split.
    + intros Hw. right. split; [done|].
      destruct (rfind root) as [i|]; [|by apply elem_of_empty in Hw].
      destruct (states_get ha (take i root)) as [value|] eqn:Hget;
        [|by apply elem_of_empty in Hw].
      apply collect_words in Hw as [?%elem_of_empty|(attr & Hin & Ht & ->)];
        [done|].
      exists i, value, attr. split_and!; try done.
      by apply elem_of_dom, elem_of_elements.
    + intros [[Hlt _]|[_ (i & value & attr & -> & -> & Hin & Ht & ->)]]; [lia|].
      apply collect_words. right. exists attr. split_and!; try done.
      by apply elem_of_elements, elem_of_dom.
  - apply Nat.eqb_neq in H2. destruct (count root <? 2) eqn:Hlt.
    + apply Nat.ltb_lt in Hlt. rewrite collect_words. split.
      * intros [?%elem_of_empty|Hw]; [done|]. left. split; [done|].
        destruct Hw as (s & ? & ? & ?). by exists s.
      * intros [[_ (s & ? & ? & ?)]|[? _]]; [|lia]. right. by exists s.
    + apply Nat.ltb_ge in Hlt. split; [by intros ?%elem_of_empty|].
      intros [[? _]|[? _]]; lia.
Qed.

(** C9, as the code has it, for every [str.lower]: [completions(root)] is a
    set.  With fewer than two separators in [root] it holds the entity
    names, with exactly two the names [entity.attribute] of the attributes
    of the entity named before the last separator, and in both cases those
    whose lower-cased text starts with the prefix as it was typed.  The
    candidate's letter case does not matter: candidates with the same
    lower-cased text match alike, and for a prefix that [lower] leaves as it
    is this is the case-insensitive match.  The prefix itself is not folded:
    where a prefix of a lower-cased text is always its own lower-cased text,
    a prefix that [lower] changes matches no entity name, and no attribute
    when [lower] changes the part after the last separator. *)
Theorem completions_matches_lowered_candidates (lower : string → string)
    ha root w :
  (w ∈ completions lower ha root ↔
     (count root < 2 ∧
      ∃ s, s ∈ states_async_all ha ∧
           startswith (lower (entity_id s)) root = true ∧ w = entity_id s) ∨
     (count root = 2 ∧
      ∃ i value attr,
        rfind root = Some i ∧ states_get ha (take i root) = Some value ∧
        is_Some (attributes value !! attr) ∧
        startswith (lower attr) (drop (S i) root) = true ∧
        w = take i root +:+ "." +:+ attr)) ∧
  (∀ c1 c2 prefix,
     lower c1 = lower c2 →
     startswith (lower c1) prefix = startswith (lower c2) prefix) ∧
  (∀ candidate prefix,
     lower prefix = prefix →
     startswith (lower candidate) prefix = spec_ci_prefix lower candidate prefix) ∧
  ((∀ s prefix, startswith (lower s) prefix = true → lower prefix = prefix) →
   (count root < 2 → lower root ≠ root → completions lower ha root = ∅) ∧
   (∀ i, count root = 2 → rfind root = Some i →
         lower (drop (S i) root) ≠ drop (S i) root →
         completions lower ha root = ∅)).
Proof.
  split_and!.
  - apply completions_elem.
  - by intros c1 c2 prefix ->.
  - intros candidate prefix Hlow. unfold spec_ci_prefix. by rewrite Hlow.
  - intros Hclosed. split.
    + intros Hlt Hlow. apply set_eq. intros x.
      split; [|by intros ?%elem_of_empty].
      intros [[_ (s & _ & Ht & _)]|[? _]]%completions_elem; [|lia].
      by apply Hclosed in Ht.
    + intros i H2 Hi Hlow. apply set_eq. intros x.
      split; [|by intros ?%elem_of_empty].
      intros [[? _]|[_ (i' & value & attr & Hi' & _ & _ & Ht & _)]]%completions_elem;
        [lia|].
      assert (i' = i) as -> by congruence. by apply Hclosed in Ht.
Qed.

(** On ASCII text the condition holds: with the ASCII folding a prefix with
    an upper-case letter matches no entity name. *)
Lemma completions_ascii_prefix_not_folded ha root :
  count root < 2 → ascii_lower root ≠ root →
  completions ascii_lower ha root = ∅.
Proof.
  intros Hlt Hlow. apply set_eq. intros x.
  split; [|by intros ?%elem_of_empty].
  intros [[_ (s & _ & Ht & _)]|[? _]]%completions_elem; [|lia].
  by apply ascii_lower_prefix_closed in Ht.
Qed.

End accessors.
End AccessorSpec.

(** * Concrete runs *)

Module Scenarios.
Import PyStr State DispatchFacts DispatchSpec AccessorSpec.

Example split_examples :
  split "a.b" = ["a"; "b"] ∧ split "a" = ["a"] ∧
  split "a.b.c.d" = ["a"; "b"; "c"; "d"] ∧ split "a." = ["a"; ""] ∧
  split "." = [""; ""].
Proof. by split_and!. Qed.

Example state_var_name_examples :
  state_var_name "light.kitchen" = Some "light.kitchen" ∧
  state_var_name "light.kitchen.brightness" = Some "light.kitchen" ∧
  state_var_name "a" = None ∧ state_var_name "a.b.c.d" = None.
Proof. by split_and!. Qed.

Lemma add_then_update_delivers_once_witness :
  length (split "light.kitchen") = 2 ∧
  ∃ st1, notify_add (NamesList ["light.kitchen"]) 7 (@init string) = Some st1 ∧
         pushed_to 7 (update [("light.kitchen", "on")] "ctx" st1).2 =
           [Msg "state" {["light.kitchen" := "on"]} "ctx"].
Proof.
  split; [reflexivity|].
  apply (add_then_update_delivers_once init "light.kitchen" 7 "on" "ctx").
  reflexivity.
Defined.

Example add_then_update_run :
  ∃ st1, notify_add (NamesList ["light.kitchen"]) 7 (@init string) = Some st1 ∧
         update [("light.kitchen", "on")] "ctx" st1 =
         (mk {["light.kitchen" := {[7 := NamesList ["light.kitchen"]]}]}
             {["light.kitchen" := "on"]},
          [(7, Msg "state" {["light.kitchen" := "on"]} "ctx")]).
Proof. eexists. split; [reflexivity|]. vm_compute. reflexivity. Qed.

Lemma batch_update_delivers_one_message_witness :
  length (split "light.kitchen") = 2 ∧ length (split "light.hall") = 2 ∧
  "light.kitchen" ≠ "light.hall" ∧
  ∃ st1,
    notify_add (NamesList ["light.kitchen"; "light.hall"]) 7 (@init string)
      = Some st1 ∧
    pushed_to 7 (update [("light.kitchen", "on"); ("light.hall", "off")]
                        "ctx" st1).2 =
      [Msg "state" {["light.kitchen" := "on"; "light.hall" := "off"]} "ctx"] ∧
    pushed_to 7 (update [("light.hall", "off"); ("light.kitchen", "on")]
                        "ctx" st1).2 =
      [Msg "state" {["light.kitchen" := "on"; "light.hall" := "off"]} "ctx"].
Proof.
  split_and!; [reflexivity|reflexivity|done|].
  apply (batch_update_delivers_one_message
           init "light.kitchen" "light.hall" 7 "on" "off" "ctx");
    [reflexivity|reflexivity|done].
Defined.

Lemma last_value_and_first_message_witness :
  length (split "light.kitchen") = 2 ∧
  ∃ st1, notify_add (NamesList ["light.kitchen"]) 7 (@init string) = Some st1 ∧
    let r1 := update [("light.kitchen", "on")] "first" st1 in
    let r2 := update [("light.kitchen", "off")] "second" r1.1 in
    notify_var_last r2.1 !! "light.kitchen" = Some "off" ∧
    notify_var_get r2.1 (NamesList ["light.kitchen"]) = {["light.kitchen" := "off"]} ∧
    pushed_to 7 r1.2 = [Msg "state" {["light.kitchen" := "on"]} "first"] ∧
    pushed_to 7 (r1.2 ++ r2.2) =
      [Msg "state" {["light.kitchen" := "on"]} "first";
       Msg "state" {["light.kitchen" := "off"]} "second"].
Proof.
  split; [reflexivity|].
  apply (last_value_and_first_message
           init "light.kitchen" 7 "on" "off" "first" "second").
  reflexivity.
Defined.

(** Queue 3 is registered for [light.kitchen], queue 7 is not. *)
Lemma no_registration_no_delivery_witness :
  inv (mk (Val := string)
          {["light.kitchen" := {[3 := NamesList ["light.kitchen"]]}]} ∅) ∧
  ((state_var_name "light.kitchen" ≫= fun key =>
      registered (mk (Val := string)
                     {["light.kitchen" := {[3 := NamesList ["light.kitchen"]]}]} ∅)
                 key 7) = None →
   pushed_to 7
     (update [("light.kitchen", "on")] "ctx"
        (mk {["light.kitchen" := {[3 := NamesList ["light.kitchen"]]}]} ∅)).2 = []) ∧
  (∃ st1 st2,
     notify_add (NamesList ["light.kitchen"]) 7
       (mk (Val := string)
           {["light.kitchen" := {[3 := NamesList ["light.kitchen"]]}]} ∅) = Some st1 ∧
     notify_del (NamesList ["light.kitchen"]) 7 st1 = Some st2 ∧
     (state_var_name "light.kitchen" ≫= fun key => registered st2 key 7) = None ∧
     pushed_to 7 (update [("light.kitchen", "on")] "ctx" st2).2 = []).
Proof.
  assert (inv (mk (Val := string)
                  {["light.kitchen" := {[3 := NamesList ["light.kitchen"]]}]} ∅))
    as Hinv.
  { apply (inv_notify_add (NamesList ["light.kitchen"]) 3 init);
      [apply inv_init|reflexivity]. }
  split; [exact Hinv|].
  exact (no_registration_no_delivery _ "light.kitchen" 7 "on" "ctx" Hinv).
Defined.

(** The list holds a name with no separator, one with three, and two
    well-formed ones with the same key. *)
Example malformed_names_run :
  notify_add (NamesList ["a"; "light.kitchen"; "a.b.c.d"; "light.kitchen.brightness"])
             7 (@init string)
  = Some (mk {["light.kitchen" :=
                 {[7 := NamesList ["a"; "light.kitchen"; "a.b.c.d";
                                   "light.kitchen.brightness"]]}]} ∅).
Proof. vm_compute. reflexivity. Qed.

(** [a.b] is not registered, so [x.y] after it is never looked at. *)
Lemma notify_del_stops_at_first_miss_witness :
  notify_del (NamesList []) 1
    (mk (Val := string) {["x.y" := {[1 := NamesList ["x.y"]]}]} ∅)
  = Some (mk {["x.y" := {[1 := NamesList ["x.y"]]}]} ∅) ∧
  state_var_name "a.b" = Some "a.b" ∧
  registered (mk (Val := string) {["x.y" := {[1 := NamesList ["x.y"]]}]} ∅) "a.b" 1
  = None ∧
  notify_del (NamesList ([] ++ "a.b" :: ["x.y"])) 1
    (mk (Val := string) {["x.y" := {[1 := NamesList ["x.y"]]}]} ∅)
  = Some (mk {["x.y" := {[1 := NamesList ["x.y"]]}]} ∅).
Proof.
  split_and!; [reflexivity..|].
  apply (notify_del_stops_at_first_miss [] "a.b" ["x.y"] "a.b" 1); reflexivity.
Defined.

(** The same list given to [notify_add] and then to [notify_del]: the second
    name has the key of the first, whose entry is gone by then, so the call
    returns and [x.y] stays registered. *)
Example notify_del_leaves_later_names :
  ∃ st1 st2,
    notify_add (NamesList ["a.b"; "a.b.c"; "x.y"]) 1 (@init string) = Some st1 ∧
    notify_del (NamesList ["a.b"; "a.b.c"; "x.y"]) 1 st1 = Some st2 ∧
    registered st2 "a.b" 1 = None ∧
    registered st2 "x.y" 1 = Some (NamesList ["a.b"; "a.b.c"; "x.y"]).
Proof. do 2 eexists. split_and!; reflexivity. Qed.

Lemma notify_add_idempotent_witness :
  notify_add (NamesList ["a.b"; "x.y.z"]) 1 (@init string)
  = Some (mk {["a.b" := {[1 := NamesList ["a.b"; "x.y.z"]]};
               "x.y" := {[1 := NamesList ["a.b"; "x.y.z"]]}]} ∅) ∧
  notify_add (NamesList ["a.b"; "x.y.z"]) 1
    (mk (Val := string)
        {["a.b" := {[1 := NamesList ["a.b"; "x.y.z"]]};
          "x.y" := {[1 := NamesList ["a.b"; "x.y.z"]]}]} ∅)
  = Some (mk {["a.b" := {[1 := NamesList ["a.b"; "x.y.z"]]};
               "x.y" := {[1 := NamesList ["a.b"; "x.y.z"]]}]} ∅).
Proof.
  assert (notify_add (NamesList ["a.b"; "x.y.z"]) 1 (@init string)
          = Some (mk {["a.b" := {[1 := NamesList ["a.b"; "x.y.z"]]};
                       "x.y" := {[1 := NamesList ["a.b"; "x.y.z"]]}]} ∅)) as Hadd
    by (vm_compute; reflexivity).
  split; [exact Hadd|].
  exact (proj1 (notify_add_idempotent _ 1 _ _ Hadd)).
Defined.

(** C8 as stated fails for [set]: the entity [light.kitchen] has the
    attribute [brightness]; [set] with the attribute [color] writes [color]
    alone, where merging into the existing attributes would keep
    [brightness]. *)
Lemma set_does_not_merge_counterexample :
  let ha := mkHA (Val := string)
              (fun s => length (split s) =? 2)
              (fun eid => if decide (eid = "light.kitchen")
                          then Some (mkStateObj "light.kitchen" "off"
                                                {["brightness" := "10"]})
                          else None)
              [] in
  length (split "light.kitchen") = 2 ∧
  from_option attributes ∅ (states_get ha "light.kitchen")
  = {["brightness" := "10"]} ∧
  async_set_attributes (set "light.kitchen" "on" (Some {["color" := "red"]}) ∅)
  = Some {["color" := "red"]} ∧
  ({["color" := "red"]} : gmap string string) !! "brightness" = None ∧
  ({["color" := "red"]} ∪ {["brightness" := "10"]} : gmap string string)
    !! "brightness" = Some "10".
Proof. intros ha. by split_and!; vm_compute. Qed.

(** The two setters on the same entity: [set_new] merges, clears and keeps;
    it rejects what [valid_entity_id] refuses, here a name that is not in
    lower case although it has two parts. *)
Example set_new_run :
  let ha := mkHA (Val := string)
              (fun s => (length (split s) =? 2) && String.eqb (ascii_lower s) s)
              (fun eid => if decide (eid = "light.kitchen")
                          then Some (mkStateObj "light.kitchen" "off"
                                                {["brightness" := "10"]})
                          else None)
              [] in
  set_new ha "light.kitchen" "on" (Some {["color" := "red"]})
  = AsyncSet "light.kitchen" "on"
             (Some {["color" := "red"; "brightness" := "10"]}) ∧
  set_new ha "light.kitchen" "on" (Some ∅) = AsyncSet "light.kitchen" "on" None ∧
  set_new ha "light.kitchen" "on" None
  = AsyncSet "light.kitchen" "on" (Some {["brightness" := "10"]}) ∧
  set_new ha "kitchen" "on" None
  = Rejected "invalid entity_id kitchen (should be 'domain.entity')" ∧
  set_new ha "Light.Kitchen" "on" None
  = Rejected "invalid entity_id Light.Kitchen (should be 'domain.entity')" ∧
  set "Light.Kitchen" "on" None ∅ = AsyncSet "Light.Kitchen" "on" None.
Proof. intros ha. by split_and!; vm_compute. Qed.

(** The scenario of the specification. *)
Example completions_light_k :
  completions ascii_lower
              (mkHA (Val := string) (fun _ => true) (fun _ => None)
                 [mkStateObj "light.kitchen" "on" ∅;
                  mkStateObj "light.living_room" "off" ∅])
              "light.k"
  = {["light.kitchen"]}.
Proof. vm_compute. reflexivity. Qed.

(** Attribute names of any letter case are found by a lower-case prefix. *)
Example completions_attribute :
  completions ascii_lower
              (mkHA (Val := string) (fun _ => true)
                 (fun eid => if decide (eid = "light.kitchen")
                             then Some (mkStateObj "light.kitchen" "on"
                                          {["Brightness" := "10"; "color" := "red"]})
                             else None)
                 [])
              "light.kitchen.br"
  = {["light.kitchen.Brightness"]}.
Proof. vm_compute. reflexivity. Qed.

(** C9 as stated fails: [Light.k] is a case-insensitive prefix of
    [light.kitchen], and [completions("Light.k")] does not hold it.  The
    three strings are ASCII text, on which [str.lower] is [ascii_lower]. *)
Lemma completions_upper_case_prefix_counterexample :
  count "Light.k" = 1 ∧
  spec_ci_prefix ascii_lower "light.kitchen" "Light.k" = true ∧
  "light.kitchen" ∉
    completions ascii_lower
                (mkHA (Val := string) (fun _ => true) (fun _ => None)
                   [mkStateObj "light.kitchen" "on" ∅;
                    mkStateObj "light.living_room" "off" ∅])
                "Light.k".
Proof.
  split_and!; [reflexivity..|].
  assert (completions ascii_lower
                (mkHA (Val := string) (fun _ => true) (fun _ => None)
                   [mkStateObj "light.kitchen" "on" ∅;
                    mkStateObj "light.living_room" "off" ∅])
                "Light.k" = ∅) as -> by (vm_compute; reflexivity).
  apply not_elem_of_empty.
Qed.

(** The same for whatever [str.lower] does elsewhere, as long as it folds
    these three strings as it does. *)
Example completions_upper_case_prefix_any_lower (lower : string → string) :
  lower "light.kitchen" = "light.kitchen" →
  lower "light.living_room" = "light.living_room" →
  lower "Light.k" = "light.k" →
  spec_ci_prefix lower "light.kitchen" "Light.k" = true ∧
  completions lower
              (mkHA (Val := string) (fun _ => true) (fun _ => None)
                 [mkStateObj "light.kitchen" "on" ∅;
                  mkStateObj "light.living_room" "off" ∅])
              "Light.k" = ∅.
Proof.
  intros H1 H2 H3. unfold spec_ci_prefix, completions. simpl.
  by rewrite H1, H2, H3.
Qed.

Lemma bare_string_registration_witness :
  inv (@init string) ∧ length (split "light.kitchen") = 2 ∧
  ∃ st1, notify_add (NamesStr "light.kitchen") 7 (@init string) = Some st1 ∧
    registered st1 "light.kitchen" 7 = Some (NamesStr "light.kitchen") ∧
    let sent := <["light.kitchen" := "on"]> (notify_var_last (@init string)) !! "." in
    pushed_to 7 (update [("light.kitchen", "on")] "ctx" st1).2 =
      [Msg "state" (from_option (fun w => {["." := w]}) ∅ sent) "ctx"] ∧
    ("light.kitchen" ≠ "." → notify_var_last (@init string) !! "." = None →
     pushed_to 7 (update [("light.kitchen", "on")] "ctx" st1).2 =
       [Msg "state" ∅ "ctx"]).
Proof.
  split_and!; [apply inv_init|reflexivity|].
  apply (bare_string_registration init "light.kitchen" 7 "on" "ctx");
    [apply inv_init|reflexivity].
Defined.

(** C10 as stated fails for the two-part name ["."]: its one character is
    the name itself, so the message carries [{".": v}] and is not empty. *)
Lemma bare_string_dot_counterexample :
  length (split ".") = 2 ∧
  ∃ st1, notify_add (NamesStr ".") 7 (@init string) = Some st1 ∧
    pushed_to 7 (update [(".", "on")] "ctx" st1).2 =
      [Msg "state" {["." := "on"]} "ctx"] ∧
    pushed_to 7 (update [(".", "on")] "ctx" st1).2 ≠ [Msg "state" ∅ "ctx"].
Proof.
  split; [reflexivity|]. eexists. split; [reflexivity|].
  assert (pushed_to 7 (update (Ctx := string) [(".", "on")] "ctx"
                         (mk (foldl (notify_add_step (NamesStr ".") 7)
                                    (notify (@init string)) ["."])
                             (notify_var_last (@init string)))).2 =
          [Msg "state" {["." := "on"]} "ctx"]) as Hpush
    by (vm_compute; reflexivity).
  split; [exact Hpush|]. rewrite Hpush. intros Heq.
  apply (f_equal (fun sent : list (message string string) =>
                    match sent with
                    | [m] => msg_vars m !! "."
                    | _ => None
                    end)) in Heq.
  vm_compute in Heq. discriminate Heq.
Qed.

End Scenarios.

(** * Further properties of the code *)

(** ** Names: the entity part and the attribute part *)

Module NameLaws.
Import PyStr PyStrFacts State KeyFacts.

Lemma count_zero_rfind s : count s = 0 → rfind s = None.
Proof.
  induction s as [|c s IH]; simpl; [done|].
  destruct (Ascii.eqb c dot); [done|]. intros H. by rewrite IH.
Qed.

Lemma join_cons_char c p ps : join (String c p :: ps) = String c (join (p :: ps)).
Proof. by destruct ps. Qed.

(** The last separator cuts a string into the join of all parts but the last,
    and the last part. *)
Lemma rfind_split s :
  0 < count s →
  ∃ i front lastp,
    rfind s = Some i ∧ split s = front ++ [lastp] ∧ front ≠ [] ∧
    take i s = join front ∧ drop (S i) s = lastp.
Proof.
  induction s as [|c s IH]; simpl; [lia|].
  destruct (Ascii.eqb c dot) eqn:Ec.
  - apply Ascii.eqb_eq in Ec as ->. intros _.
    destruct (decide (count s = 0)) as [Hz|Hnz].
    + exists 0, [""], s. rewrite (count_zero_rfind _ Hz), (split_no_dot _ Hz).
      by destruct s.
    + destruct IH as (i & front & lastp & Hi & Hs & Hne & Ht & Hd); [lia|].
      exists (S i), ("" :: front), lastp. rewrite Hi, Hs. split_and!; try done.
      simpl. rewrite Ht. by destruct front.
  - intros Hpos. destruct (IH Hpos) as (i & front & lastp & Hi & Hs & Hne & Ht & Hd).
    destruct front as [|p front]; [done|].
    exists (S i), (String c p :: front), lastp. rewrite Hi, Hs.
    split_and!; try done. simpl take. by rewrite Ht, join_cons_char.
Qed.

Lemma rsplit1_three_parts s p0 p1 p2 :
  split s = [p0; p1; p2] → rsplit1 s = Some (p0 +:+ "." +:+ p1, p2).
Proof.
  intros Hs. assert (0 < count s) as Hpos.
  { pose proof (split_length s) as Hl. rewrite Hs in Hl. simpl in Hl. lia. }
  destruct (rfind_split s Hpos) as (i & front & lastp & Hi & Hs' & Hne & Ht & Hd).
  rewrite Hs in Hs'. change [p0; p1; p2] with ([p0; p1] ++ [p2]) in Hs'.
  apply app_inj_tail in Hs' as [<- <-].
  unfold rsplit1. by rewrite Hi, Ht, Hd.
Qed.

Lemma startswith_app s t : startswith (s +:+ t) s = true.
Proof.
  induction s as [|c s IH]; [change ("" +:+ t) with t; by destruct t|].
  change (String c s +:+ t) with (String c (s +:+ t)). simpl.
  by rewrite Ascii.eqb_refl.
Qed.

Lemma startswith_same s : startswith s s = true.
Proof. induction s as [|c s IH]; simpl; [done|]. by rewrite Ascii.eqb_refl. Qed.

Lemma string_app_assoc s t u : (s +:+ t) +:+ u = s +:+ (t +:+ u).
Proof.
  induction s as [|c s IH]; [done|].
  change (String c ((s +:+ t) +:+ u) = String c (s +:+ (t +:+ u))).
  by rewrite IH.
Qed.

Lemma split_three_parts s :
  count s = 2 → ∃ p0 p1 p2, split s = [p0; p1; p2].
Proof.
  intros Hc. pose proof (split_length s) as Hl. rewrite Hc in Hl.
  destruct (split s) as [|p0 [|p1 [|p2 [|p3 ps]]]]; simplify_eq/=. eauto.
Qed.

(** X1: the subscription key of a name is a prefix of the name, has exactly
    one separator, and is its own subscription key. *)
Theorem state_var_name_is_prefix_and_fixed n key :
  state_var_name n = Some key →
  startswith n key = true ∧ count key = 1 ∧ state_var_name key = Some key.
Proof.
  intros Hn. pose proof (state_var_name_key_two_part _ _ Hn) as Hlen.
  split_and!.
  - revert Hn. unfold state_var_name. pose proof (join_split n) as Hj.
    destruct (split n) as [|p0 [|p1 [|p2 [|p3 ps]]]]; intros; simplify_eq/=.
    + apply startswith_same.
    + pose proof (startswith_app (p0 +:+ "." +:+ p1) (String dot p2)) as H.
      by rewrite string_app_assoc in H.
  - rewrite split_length in Hlen. lia.
  - by apply state_var_name_two_part.
Qed.

Lemma three_part_name n :
  count n = 2 →
  ∃ key attr,
    state_var_name n = Some key ∧ rsplit1 n = Some (key, attr) ∧
    n = key +:+ "." +:+ attr ∧ count attr = 0.
Proof.
  intros (p0 & p1 & p2 & Hs)%split_three_parts.
  exists (p0 +:+ "." +:+ p1), p2. split_and!.
  - by apply (state_var_name_three_part n p0 p1 p2).
  - by apply rsplit1_three_parts.
  - pose proof (join_split n) as Hj. rewrite Hs in Hj. rewrite <- Hj.
    change (join [p0; p1; p2]) with (p0 +:+ String dot (p1 +:+ String dot p2)).
    change (p0 +:+ "." +:+ p1) with (p0 +:+ String dot p1).
    change ("." +:+ p2) with (String dot p2).
    by rewrite string_app_assoc.
  - pose proof (split_parts_no_dot n) as Hnd. rewrite Hs in Hnd.
    by repeat match goal with H : Forall _ (_ :: _) |- _ => inversion_clear H end.
Qed.

(** X2: a name with two separators is its subscription key, a separator and
    an attribute part without separator; [rsplit], which [get] uses, cuts it
    at the same place as [split], which [notify_add] and [exist] use. *)
Theorem three_part_name_entity_and_attribute n :
  count n = 2 →
  ∃ key attr,
    state_var_name n = Some key ∧ rsplit1 n = Some (key, attr) ∧
    n = key +:+ "." +:+ attr ∧ count attr = 0.
Proof. apply three_part_name. Qed.

End NameLaws.

(** ** The registry *)

Module RegistryLaws.
Import PyStr PyStrFacts State KeyFacts RegistryFacts DispatchFacts.

Implicit Types (reg : gmap string (gmap nat var_names)) (q : nat).
Implicit Types (names : list string) (vn : var_names).

(** Under each key the loop of [notify_del] leaves what was there, or what
    was there without the queue. *)
Lemma notify_del_loop_lookup q names reg key :
  notify_del_loop q names reg !! key = reg !! key ∨
  ∃ consumers, reg !! key = Some consumers ∧
               notify_del_loop q names reg !! key = Some (delete q consumers).
Proof.
  revert reg. induction names as [|n names IH]; intros reg; simpl; [by left|].
  destruct (state_var_name n) as [kn|]; [|apply IH].
  destruct (reg !! kn) as [consumers|] eqn:Hkn; [|by left].
  destruct (consumers !! q); [|by left].
  destruct (decide (kn = key)) as [->|Hne].
  - right. exists consumers. split; [done|].
    destruct (IH (<[key := delete q consumers]> reg)) as [H|(c' & Hc' & H)].
    + by rewrite H, lookup_insert_eq.
    + rewrite lookup_insert_eq in Hc'. injection Hc' as <-.
      by rewrite H, delete_delete_eq.
  - destruct (IH (<[kn := delete q consumers]> reg)) as [H|(c' & Hc' & H)];
      rewrite lookup_insert_ne in * by done; eauto.
Qed.

(** When no two names of the list share a key and the queue is registered
    under each of them, the loop removes the queue under every key. *)
Lemma notify_del_loop_all_hit q names reg :
  NoDup (omap state_var_name names) →
  (∀ key, key ∈ omap state_var_name names →
          ∃ consumers, reg !! key = Some consumers ∧ is_Some (consumers !! q)) →
  ∀ key, notify_del_loop q names reg !! key =
         if decide (key ∈ omap state_var_name names)
         then delete q <$> reg !! key
         else reg !! key.
Proof.
  revert reg. induction names as [|n names IH]; intros reg Hnd Hreg key.
  - done.
  - simpl in *. destruct (state_var_name n) as [kn|] eqn:Hn; [|by apply IH].
    apply NoDup_cons in Hnd as [Hkn Hnd].
    destruct (Hreg kn) as (consumers & Hc & [vn Hq]); [by left|].
    rewrite Hc, Hq. rewrite IH; [|done|].
    + destruct (decide (key = kn)) as [->|Hne].
      * rewrite decide_False by done. rewrite decide_True by left.
        by rewrite lookup_insert_eq, Hc.
      * rewrite lookup_insert_ne by done.
        destruct (decide (key ∈ omap state_var_name names)) as [Hin|Hin];
          [rewrite decide_True by (by right)
          |rewrite decide_False by (by apply not_elem_of_cons)]; done.
    + intros key' Hin. rewrite lookup_insert_ne by (by intros ->).
      apply Hreg. by right.
Qed.

Section registry_laws.
Context {Val : Type}.
Implicit Types (st : State.t Val).

(** X3: [notify_add] for one queue leaves the registrations of every other
    queue, and the cache, as they were. *)
Theorem notify_add_keeps_other_queues vn q st st1 :
  notify_add vn q st = Some st1 →
  (∀ key q', q' ≠ q → registered st1 key q' = registered st key q') ∧
  notify_var_last st1 = notify_var_last st.
Proof.
  unfold notify_add. destruct (loop_names vn) as [names|]; [|done]. simpl.
  intros [= <-]. split; [|done]. intros key q' Hne. unfold registered. simpl.
  rewrite notify_add_loop_lookup. case_decide; [|done]. simpl.
  rewrite lookup_insert_ne by done.
  by destruct (notify st !! key).
Qed.

(** X4: [notify_del] only removes, and only for its own queue: the other
    queues keep their registrations, a registration the queue still has was
    there before with the same request list, no key leaves the registry and
    the cache is not touched. *)
Theorem notify_del_only_removes_own_queue vn q st st' :
  notify_del vn q st = Some st' →
  (∀ key q', q' ≠ q → registered st' key q' = registered st key q') ∧
  (∀ key vn', registered st' key q = Some vn' → registered st key q = Some vn') ∧
  dom (notify st') = dom (notify st) ∧
  notify_var_last st' = notify_var_last st.
Proof.
  unfold notify_del. destruct (loop_names vn) as [names|]; [|done]. simpl.
  intros [= <-]. split_and!; [| | |done].
  - intros key q' Hne. unfold registered. simpl.
    destruct (notify_del_loop_lookup q names (notify st) key)
      as [->|(consumers & -> & ->)]; [done|].
    simpl. by apply lookup_delete_ne.
  - intros key vn'. unfold registered. simpl.
    destruct (notify_del_loop_lookup q names (notify st) key)
      as [->|(consumers & -> & ->)]; [done|].
    simpl. by rewrite lookup_delete_eq.
  - apply set_eq. intros key. rewrite !elem_of_dom. simpl.
    destruct (notify_del_loop_lookup q names (notify st) key)
      as [->|(consumers & -> & ->)]; [done|].
    split; eauto.
Qed.

(** X5: when no two valid names of a list share a subscription key,
    [notify_del] of the list right after [notify_add] of it removes the queue
    under every key of the list, and all other registrations are as they
    were before the two calls. *)
Theorem notify_del_undoes_notify_add names q st :
  NoDup (omap state_var_name names) →
  ∃ st1 st2,
    notify_add (NamesList names) q st = Some st1 ∧
    notify_del (NamesList names) q st1 = Some st2 ∧
    (∀ key, registered st2 key q =
            if decide (key ∈ omap state_var_name names) then None
            else registered st key q) ∧
    (∀ key q', q' ≠ q → registered st2 key q' = registered st key q').
Proof.
  intros Hnd. do 2 eexists. split_and!; [reflexivity..| |].
  - intros key. unfold registered. simpl.
    rewrite notify_del_loop_all_hit; [|done|].
    + rewrite notify_add_loop_lookup. case_decide; [|done].
      simpl. apply lookup_delete_eq.
    + intros key' Hin. rewrite notify_add_loop_lookup, decide_True by done.
      eexists. split; [done|]. rewrite lookup_insert_eq. eauto.
  - intros key q' Hne. unfold registered. simpl.
    rewrite notify_del_loop_all_hit; [|done|].
    + rewrite notify_add_loop_lookup. case_decide; [|done].
      simpl. rewrite lookup_delete_ne, lookup_insert_ne by done.
      by destruct (notify st !! key).
    + intros key' Hin. rewrite notify_add_loop_lookup, decide_True by done.
      eexists. split; [done|]. rewrite lookup_insert_eq. eauto.
Qed.

(** X6: registrations of two different queues do not depend on the order of
    the two [notify_add] calls. *)
Theorem notify_add_commutes vn1 vn2 q1 q2 st :
  q1 ≠ q2 →
  notify_add vn1 q1 st ≫= notify_add vn2 q2 =
  notify_add vn2 q2 st ≫= notify_add vn1 q1.
Proof.
  intros Hne. unfold notify_add.
  destruct (loop_names vn1) as [names1|] eqn:H1,
           (loop_names vn2) as [names2|] eqn:H2;
    simpl; rewrite ?H1, ?H2; simpl; try done.
  f_equal. f_equal. apply map_eq. intros key.
  rewrite !notify_add_loop_lookup.
  destruct (decide (key ∈ omap state_var_name names1)),
           (decide (key ∈ omap state_var_name names2)); simpl; try done.
  by rewrite insert_insert_ne.
Qed.

End registry_laws.
End RegistryLaws.

(** ** Delivery *)

Module DeliveryLaws.
Import PyStr PyStrFacts State KeyFacts RegistryFacts DispatchFacts DispatchSpec.

Section delivery_laws.
Context {Val Ctx : Type}.
Implicit Types (st : State.t Val) (acc : gmap nat var_names) (q c : nat).
Implicit Types (vn : var_names) (new_vars : list (string * Val)).
Implicit Types (v : Val) (ctx : Ctx) (k key n : string).

(** A queue is in the accumulator when it was there, or when it is registered
    under a name of the batch. *)
Lemma update_loop_acc_is_Some new_vars (sa : State.t Val * gmap nat var_names) c :
  is_Some ((foldl update_var sa new_vars).2 !! c) ↔
  is_Some (sa.2 !! c) ∨
  ∃ k v, (k, v) ∈ new_vars ∧ is_Some (registered sa.1 k c).
Proof.
  revert sa. induction new_vars as [|[k0 v0] new_vars IH]; intros sa; simpl.
  - split; [by left|]. by intros [?|(k & v & ?%elem_of_nil & _)].
  - rewrite IH. clear IH.
    assert (notify (update_var sa (k0, v0)).1 = notify sa.1) as Hnot.
    { unfold update_var. simpl. by destruct (notify sa.1 !! k0). }
    assert (is_Some ((update_var sa (k0, v0)).2 !! c) ↔
            is_Some (sa.2 !! c) ∨ is_Some (registered sa.1 k0 c)) as Hacc.
    { unfold update_var, registered. simpl.
      destruct (notify sa.1 !! k0) as [consumers|]; simpl.
      - rewrite lookup_union_is_Some. tauto.
      - split; [by left|]. by intros [?|[? ?]]. }
    rewrite Hacc. unfold registered. rewrite Hnot. split.
    + intros [[?|?]|(k & v & Hin & Hr)].
      * by left.
      * right. exists k0, v0. split; [by left|done].
      * right. exists k, v. split; [by right|done].
    + intros [?|(k & v & Hin & Hr)]; [by left; left|].
      apply elem_of_cons in Hin as [[= -> ->]|Hin]; [by left; right|].
      right. by exists k, v.
Qed.

(** X7: whatever the batch, one call of [update] puts at most one message on
    a queue, tagged ["state"] and carrying the context of the call; it puts
    one exactly when the queue is registered under a name of the batch. *)
Theorem update_delivers_once_iff_registered new_vars ctx st c :
  (pushed_to c (update new_vars ctx st).2 = [] ∨
   ∃ m, pushed_to c (update new_vars ctx st).2 = [m] ∧
        msg_tag m = "state" ∧ msg_ctx m = ctx) ∧
  (pushed_to c (update new_vars ctx st).2 ≠ [] ↔
   ∃ k v, (k, v) ∈ new_vars ∧ is_Some (registered st k c)).
Proof.
  rewrite pushed_to_update. simpl.
  pose proof (update_loop_acc_is_Some new_vars (st, ∅) c) as Hacc.
  simpl in Hacc. rewrite lookup_empty in Hacc.
  destruct ((foldl update_var (st, ∅) new_vars).2 !! c) as [vn|].
  - split; [right; eauto|]. split; [|done]. intros _.
    destruct (proj1 Hacc) as [[? [=]]|?]; eauto.
  - split; [by left|]. split; [done|]. intros H.
    destruct (proj2 Hacc (or_intror H)) as [? [=]].
Qed.

(** The cache after the first loop of [update]. *)
Lemma update_loop_cache_other new_vars (sa : State.t Val * gmap nat var_names) k :
  k ∉ new_vars.*1 ∨ notify sa.1 !! k = None →
  notify_var_last (foldl update_var sa new_vars).1 !! k = notify_var_last sa.1 !! k.
Proof.
  revert sa. induction new_vars as [|[k0 v0] new_vars IH]; intros sa Hk; [done|].
  simpl. rewrite IH.
  - unfold update_var. simpl.
    destruct (notify sa.1 !! k0) as [consumers|] eqn:Hk0; [|done]. simpl.
    apply lookup_insert_ne. intros ->.
    destruct Hk as [Hk|Hk]; [|congruence]. apply Hk. simpl. by left.
  - assert (notify (update_var sa (k0, v0)).1 = notify sa.1) as ->.
    { unfold update_var. simpl. by destruct (notify sa.1 !! k0). }
    destruct Hk as [Hk|Hk]; [left|by right].
    intros Hin. apply Hk. simpl. by right.
Qed.

Lemma update_loop_cache_set new_vars (sa : State.t Val * gmap nat var_names) k v :
  NoDup new_vars.*1 → (k, v) ∈ new_vars → is_Some (notify sa.1 !! k) →
  notify_var_last (foldl update_var sa new_vars).1 !! k = Some v.
Proof.
  revert sa. induction new_vars as [|[k0 v0] new_vars IH]; intros sa Hnd Hin Hreg.
  - by apply elem_of_nil in Hin.
  - simpl in *. apply NoDup_cons in Hnd as [Hk0 Hnd].
    assert (notify (update_var sa (k0, v0)).1 = notify sa.1) as Hnot.
    { unfold update_var. simpl. by destruct (notify sa.1 !! k0). }
    apply elem_of_cons in Hin as [[= -> ->]|Hin].
    + rewrite update_loop_cache_other by (by left).
      unfold update_var. simpl. destruct Hreg as [consumers ->]. simpl.
      apply lookup_insert_eq.
    + apply IH; [done..|]. by rewrite Hnot.
Qed.

(** X8: [update] never changes the registry, and it changes the cache at the
    registered names of the batch only: such a name gets the value the batch
    has for it, every other name keeps what it had. *)
Theorem update_records_registered_names new_vars ctx st :
  notify (update new_vars ctx st).1 = notify st ∧
  (∀ k, k ∉ new_vars.*1 ∨ notify st !! k = None →
        notify_var_last (update new_vars ctx st).1 !! k = notify_var_last st !! k) ∧
  (NoDup new_vars.*1 →
   ∀ k v, (k, v) ∈ new_vars → is_Some (notify st !! k) →
          notify_var_last (update new_vars ctx st).1 !! k = Some v).
Proof.
  unfold update. simpl. split_and!.
  - apply update_loop_notify.
  - intros k Hk. by apply update_loop_cache_other.
  - intros Hnd k v Hin Hreg. by apply update_loop_cache_set.
Qed.

Lemma update_loop_unregistered new_vars (sa : State.t Val * gmap nat var_names) :
  (∀ k, k ∈ new_vars.*1 → notify sa.1 !! k = None) →
  foldl update_var sa new_vars = sa.
Proof.
  revert sa. induction new_vars as [|[k0 v0] new_vars IH]; intros sa Hk; [done|].
  simpl. assert (update_var sa (k0, v0) = sa) as ->.
  { unfold update_var. simpl. rewrite Hk; [done|]. simpl. by left. }
  apply IH. intros k Hin. apply Hk. simpl. by right.
Qed.

(** X9: a batch that names no key of the registry changes nothing and puts
    nothing; in a state whose keys are two-part names this is every batch of
    attribute-qualified or malformed names. *)
Theorem update_ignores_unregistered_names new_vars ctx st :
  (∀ k, k ∈ new_vars.*1 → notify st !! k = None ∨ (inv st ∧ count k ≠ 1)) →
  update new_vars ctx st = (st, []).
Proof.
  intros Hk. unfold update.
  rewrite update_loop_unregistered; [simpl; by rewrite map_to_list_empty|].
  simpl. intros k [Hnone|[[Hreg _] Hc]]%Hk; [done|].
  apply eq_None_not_Some. intros H%Hreg. rewrite split_length in H. lia.
Qed.

(** X10: a queue registered for an attribute-qualified name alone is notified
    when the entity changes, with an empty mapping: the cache has entries for
    entities only. *)
Theorem attribute_subscription_gets_empty_mapping st n key c v ctx :
  inv st → count n = 2 → state_var_name n = Some key →
  ∃ st1, notify_add (NamesList [n]) c st = Some st1 ∧
         pushed_to c (update [(key, v)] ctx st1).2 = [Msg "state" ∅ ctx].
Proof.
  intros [_ Hcache] Hc Hn. eexists. split; [reflexivity|]. set (st1 := mk _ _).
  assert (notify st1 !! key = Some (<[c := NamesList [n]]> (default ∅ (notify st !! key))))
    as Hreg.
  { eapply (notify_add_lookup (NamesList [n]) [n]); [done..|by left|done]. }
  rewrite (pushed_to_update_one _ _ _ _ _ _ Hreg), lookup_insert_eq.
  unfold notify_var_get. simpl.
  pose proof (state_var_name_key_two_part _ _ Hn) as Hkey.
  rewrite lookup_insert_ne by (intros ->; rewrite split_length in Hkey; lia).
  destruct (notify_var_last st !! n) eqn:Hcn; [|done].
  assert (length (split n) = 2) as Hlen by (apply Hcache; by rewrite Hcn).
  rewrite split_length in Hlen. lia.
Qed.

(** X11: the mapping of a message has exactly the requested names that are in
    the cache, each with its cached value; [None] as request list gives the
    empty mapping. *)
Theorem notify_var_get_exactly_recorded st vn n v :
  (notify_var_get st vn !! n = Some v ↔
   n ∈ lookup_names vn ∧ notify_var_last st !! n = Some v) ∧
  notify_var_get st NamesNone = ∅.
Proof.
  split; [|done]. rewrite notify_var_get_lookup.
  case_decide; [|split; [done|by intros [? _]]]. tauto.
Qed.

(** X12: a queue registered for two names receives, when only the first
    changes, the new value of the first together with the last recorded value
    of the second, if there is one. *)
Theorem update_carries_last_value_of_sibling st k1 k2 c v1 ctx :
  length (split k1) = 2 → length (split k2) = 2 → k1 ≠ k2 →
  ∃ st1, notify_add (NamesList [k1; k2]) c st = Some st1 ∧
         pushed_to c (update [(k1, v1)] ctx st1).2 =
           [Msg "state"
                match notify_var_last st !! k2 with
                | Some w => {[k1 := v1; k2 := w]}
                | None => {[k1 := v1]}
                end
                ctx].
Proof.
  intros Hk1%state_var_name_two_part Hk2 Hne.
  eexists. split; [reflexivity|]. set (st1 := mk _ _).
  assert (notify st1 !! k1 =
          Some (<[c := NamesList [k1; k2]]> (default ∅ (notify st !! k1)))) as Hreg.
  { eapply (notify_add_lookup (NamesList [k1; k2]) [k1; k2]); [done..|by left|done]. }
  rewrite (pushed_to_update_one _ _ _ _ _ _ Hreg), lookup_insert_eq.
  destruct (notify_var_last st !! k2) as [w|] eqn:Hc2.
  - rewrite (notify_var_get_two _ k1 k2 v1 w); [done|simpl..].
    + apply lookup_insert_eq.
    + by rewrite lookup_insert_ne.
  - unfold notify_var_get. simpl.
    by rewrite lookup_insert_eq, lookup_insert_ne, Hc2.
Qed.

(** X13: when the last queue of a name has been removed the name stays in the
    registry with no consumers; [update] still records its value and puts
    nothing. *)
Theorem update_records_after_last_removal st k c v ctx :
  length (split k) = 2 → notify st !! k = None →
  ∃ st1 st2,
    notify_add (NamesList [k]) c st = Some st1 ∧
    notify_del (NamesList [k]) c st1 = Some st2 ∧
    notify st2 !! k = Some ∅ ∧
    update [(k, v)] ctx st2 =
      (mk (notify st2) (<[k := v]> (notify_var_last st)), []).
Proof.
  intros Hk%state_var_name_two_part Hfresh.
  do 2 eexists. split_and!; [reflexivity..| |].
  - simpl. rewrite (notify_add_step_valid _ _ _ _ _ Hk), Hk, Hfresh. simpl.
    repeat (rewrite lookup_insert_eq; simpl).
    by rewrite delete_insert_eq, delete_empty.
  - unfold update, update_var. simpl.
    rewrite (notify_add_step_valid _ _ _ _ _ Hk), Hk, Hfresh. simpl.
    repeat (rewrite lookup_insert_eq; simpl).
    rewrite delete_insert_eq, delete_empty, (left_id_L ∅ (∪)).
    by rewrite map_to_list_empty.
Qed.

(** X22: within one batch the request list of the last name wins: a queue
    registered for [k1] and, by a second call, for [k2] receives for a batch
    with both, in that order, one message with the value of [k2] alone. *)
Theorem update_uses_request_list_of_last_name st k1 k2 c (v1 v2 : Val) ctx :
  length (split k1) = 2 → length (split k2) = 2 → k1 ≠ k2 →
  ∃ st1 st2,
    notify_add (NamesList [k1]) c st = Some st1 ∧
    notify_add (NamesList [k2]) c st1 = Some st2 ∧
    pushed_to c (update [(k1, v1); (k2, v2)] ctx st2).2 =
      [Msg "state" {[k2 := v2]} ctx].
Proof.
  intros Hk1%state_var_name_two_part Hk2%state_var_name_two_part Hne.
  do 2 eexists. split_and!; [reflexivity..|].
  set (st1 := mk _ (notify_var_last st)). set (st2 := mk _ _).
  assert (notify st2 !! k2 =
          Some (<[c := NamesList [k2]]> (default ∅ (notify st1 !! k2)))) as Hr2.
  { eapply (notify_add_lookup (NamesList [k2]) [k2] c st1);
      [done..|by left|done]. }
  assert (is_Some (notify st2 !! k1)) as [cons1 Hr1].
  { unfold st2, st1. simpl.
    rewrite (notify_add_step_valid _ _ _ _ _ Hk2), lookup_insert_ne by done.
    rewrite (notify_add_step_valid _ _ _ _ _ Hk1), lookup_insert_eq. eauto. }
  clearbody st2.
  rewrite (pushed_to_update_two _ _ _ _ _ _ _ _ _ (NamesList [k2]) Hr1 Hr2)
    by apply lookup_insert_eq.
  by rewrite (notify_var_get_one _ k2 v2) by apply lookup_insert_eq.
Qed.

End delivery_laws.
End DeliveryLaws.

(** ** The accessors *)

Module AccessorLaws.
Import PyStr PyStrFacts State KeyFacts NameLaws AccessorSpec.

Section accessor_laws.
Context {Val : Type}.
Implicit Types (ha : HomeAssistant Val) (a kwargs : gmap string Val).
Implicit Types (attrs : option (gmap string Val)) (n eid key w : string).

(** X14: [set] writes, for a two-part name, the given attributes with the
    keyword attributes laid over them; it never reads the attributes the
    entity has, so with neither given the entity is left without attributes. *)
Theorem set_writes_given_attributes n (value : Val) attrs kwargs :
  length (split n) = 2 →
  ∃ written,
    set n value attrs kwargs = AsyncSet n value written ∧
    async_set_attributes (set n value attrs kwargs) = Some (default ∅ written) ∧
    ∀ x, default ∅ written !! x =
         match kwargs !! x with
         | Some y => Some y
         | None => default ∅ attrs !! x
         end.
Proof.
  intros Hlen. unfold set. rewrite Hlen. simpl.
  destruct (from_option truthy false attrs || truthy kwargs) eqn:Ht.
  - eexists. split_and!; [done..|]. intros x. simpl. rewrite lookup_union.
    by destruct (kwargs !! x), (default ∅ attrs !! x).
  - eexists. split_and!; [done..|]. intros x.
    apply orb_false_iff in Ht as [_ Hk%truthy_false]. subst kwargs.
    by rewrite lookup_empty.
Qed.

(** X15: for an accepted entity that has no attributes yet, [set] without
    keyword attributes and [set_new] leave the entity with the same
    attributes. *)
Theorem set_and_set_new_agree_without_old_attributes ha eid (value : Val) attrs :
  length (split eid) = 2 → valid_entity_id ha eid = true →
  from_option attributes ∅ (states_get ha eid) = ∅ →
  async_set_attributes (set eid value attrs ∅) =
  async_set_attributes (set_new ha eid value attrs).
Proof.
  intros Hlen Hv Hold. unfold set, set_new. rewrite Hlen, Hv, Hold. simpl.
  rewrite (proj2 (truthy_false ∅)) by done. rewrite orb_false_r.
  destruct attrs as [a|]; simpl; [|done].
  destruct (truthy a) eqn:Ha; simpl.
  - by rewrite (left_id_L ∅ (∪)), (right_id_L ∅ (∪)).
  - apply truthy_false in Ha. by subst a.
Qed.

(** X16: [get] of a name with two separators and a non-empty attribute part
    reads that attribute of the entity named by the subscription key, when
    [valid_entity_id] accepts the key and the entity is found; it gives
    [None] otherwise, and for every name with more than two separators. *)
Theorem get_attribute_of_entity ha n :
  (∀ key attr,
     count n = 2 → state_var_name n = Some key → n = key +:+ "." +:+ attr →
     attr ≠ "" →
     get ha n = if valid_entity_id ha key
                then states_get ha key ≫= fun value => attributes value !! attr
                else None) ∧
  (2 < count n → get ha n = None).
Proof.
  split.
  - intros key attr Hc Hn Heq Hattr.
    destruct (three_part_name n Hc)
      as (key' & attr' & Hn' & Hr & Heq' & _).
    assert (key' = key) as -> by congruence.
    assert (attr' = attr) as ->.
    { rewrite Heq in Heq' at 1. by apply (inj (String.app key)), (inj (String.app ".")) in Heq'. }
    unfold get. rewrite Hc, Hr. simpl.
    destruct (valid_entity_id ha key); simpl; [|done].
    destruct (states_get ha key) as [value|]; simpl; [|done].
    by destruct attr.
  - intros Hc. unfold get.
    rewrite (proj2 (Nat.eqb_neq _ _)) by lia.
    by rewrite (proj2 (Nat.ltb_lt _ _) Hc).
Qed.

Lemma trailing_separator eid :
  count eid = 1 →
  count (eid +:+ ".") = 2 ∧ rsplit1 (eid +:+ ".") = Some (eid, "").
Proof.
  intros Hc.
  pose proof (join_split eid) as Hj. pose proof (split_parts_no_dot eid) as Hnd.
  pose proof (split_length eid) as Hl. rewrite Hc in Hl.
  destruct (split eid) as [|p0 [|p1 [|p2 ps]]] eqn:He; simplify_eq/=.
  repeat match goal with H : Forall _ (_ :: _) |- _ => inversion_clear H end.
  assert (split ((p0 +:+ String dot p1) +:+ ".") = [p0; p1; ""]) as Hs.
  { rewrite string_app_assoc.
    change (String dot p1 +:+ ".") with (String dot (p1 +:+ String dot "")).
    by rewrite !split_app_dot. }
  split.
  - pose proof (split_length ((p0 +:+ String dot p1) +:+ ".")) as Hl'.
    rewrite Hs in Hl'. simpl in Hl'. lia.
  - by rewrite (rsplit1_three_parts _ p0 p1 "" Hs).
Qed.

(** X17: a separator at the end of a two-part name is ignored by [get]: the
    empty attribute name makes it return the state of the entity. *)
Theorem get_ignores_trailing_separator ha eid :
  count eid = 1 → get ha (eid +:+ ".") = get ha eid.
Proof.
  intros Hc. destruct (trailing_separator eid Hc) as [Hc2 Hr].
  unfold get. rewrite Hc, Hc2, Hr. simpl.
  destruct (valid_entity_id ha eid); simpl; [|done].
  by destruct (states_get ha eid).
Qed.

Lemma exist_true_cases (is_none : Val → bool) ha n :
  exist is_none ha n = Some true ↔
  ∃ key value,
    state_var_name n = Some key ∧ states_get ha key = Some value ∧
    (count n = 1 ∨
     ∃ attr v, split n !! 2 = Some attr ∧ attributes value !! attr = Some v ∧
               is_none v = false).
Proof.
  unfold exist. pose proof (split_length n) as Hl. split.
  - destruct (state_var_name n) as [key|] eqn:Hn; [|done].
    destruct (states_get ha key) as [value|] eqn:Hget; [|done].
    intros [= Hor]. exists key, value. split_and!; [done..|].
    apply orb_true_iff in Hor as [Hlen%Nat.eqb_eq|Hattr]; [left; lia|right].
    destruct (split n !! 2) as [attr|]; [|done].
    destruct (attributes value !! attr) as [v|] eqn:Hv; [|done].
    exists attr, v. split_and!; [done..|]. by apply negb_true_iff.
  - intros (key & value & -> & -> & [Hc|(attr & v & -> & -> & Hv)]).
    + rewrite Hl, Hc. done.
    + simpl. rewrite Hv. by rewrite orb_true_r.
Qed.

(** X18: [exist] answers [True] exactly when the entity named by the
    subscription key is found and, for a name with two separators, has the
    attribute with a value other than [None]. *)
Theorem exist_true_iff (is_none : Val → bool) ha n :
  exist is_none ha n = Some true ↔
  ∃ key value,
    state_var_name n = Some key ∧ states_get ha key = Some value ∧
    (count n = 1 ∨
     ∃ attr v, split n !! 2 = Some attr ∧ attributes value !! attr = Some v ∧
               is_none v = false).
Proof. apply exist_true_cases. Qed.


(** X20: the empty prefix completes to the names of all entities. *)
Theorem completions_of_empty_prefix (lower : string → string) ha :
  completions lower ha "" = list_to_set (entity_id <$> states_async_all ha).
Proof.
  apply set_eq. intros w. unfold completions. simpl.
  rewrite collect_words, elem_of_list_to_set, list_elem_of_fmap. split.
  - intros [?%elem_of_empty|(s & Hin & _ & ->)]; [done|]. by exists s.
  - intros (s & -> & Hin). right. exists s. split_and!; [done| |done].
    by destruct (lower (entity_id s)).
Qed.

(** X21: an entity name followed by a separator completes to all attributes
    of the entity, each as [entity.attribute]. *)
Theorem completions_of_entity_and_separator (lower : string → string)
    ha eid value w :
  count eid = 1 → states_get ha eid = Some value →
  (w ∈ completions lower ha (eid +:+ ".") ↔
   ∃ attr, is_Some (attributes value !! attr) ∧ w = eid +:+ "." +:+ attr).
Proof.
  intros Hc Hget. destruct (trailing_separator eid Hc) as [Hc2 Hr].
  unfold rsplit1 in Hr. unfold completions. rewrite Hc2. simpl.
  destruct (rfind (eid +:+ ".")) as [i|]; [|done]. injection Hr as Ht Hd.
  rewrite Ht, Hd, Hget, collect_words. split.
  - intros [?%elem_of_empty|(attr & Hin & _ & ->)]; [done|]. exists attr.
    split; [|done]. by apply elem_of_dom, elem_of_elements.
  - intros (attr & Hin & ->). right. exists attr. split_and!; [|by destruct (lower attr)|done].
    by apply elem_of_elements, elem_of_dom.
Qed.

End accessor_laws.
End AccessorLaws.

(** ** Concrete runs of the further properties *)

Module LawScenarios.
Import PyStr State DispatchFacts NameLaws RegistryLaws DeliveryLaws AccessorLaws.

Lemma state_var_name_is_prefix_and_fixed_witness :
  state_var_name "light.kitchen.brightness" = Some "light.kitchen" ∧
  startswith "light.kitchen.brightness" "light.kitchen" = true ∧
  count "light.kitchen" = 1 ∧
  state_var_name "light.kitchen" = Some "light.kitchen".
Proof.
  split; [reflexivity|].
  apply (state_var_name_is_prefix_and_fixed "light.kitchen.brightness").
  reflexivity.
Defined.

Lemma three_part_name_entity_and_attribute_witness :
  count "light.kitchen.brightness" = 2 ∧
  ∃ key attr,
    state_var_name "light.kitchen.brightness" = Some key ∧
    rsplit1 "light.kitchen.brightness" = Some (key, attr) ∧
    "light.kitchen.brightness" = key +:+ "." +:+ attr ∧ count attr = 0.
Proof.
  split; [reflexivity|].
  apply (three_part_name_entity_and_attribute "light.kitchen.brightness").
  reflexivity.
Defined.

(** Queue 3 is registered for [a.b] and [x.y]; queue 7 comes and goes. *)
Lemma notify_add_keeps_other_queues_witness :
  ∃ st1,
    notify_add (NamesList ["a.b"; "c.d"]) 7
      (mk (Val := string) {["a.b" := {[3 := NamesList ["a.b"]]}]} ∅) = Some st1 ∧
    (∀ key q', q' ≠ 7 →
       registered st1 key q' =
       registered (mk (Val := string) {["a.b" := {[3 := NamesList ["a.b"]]}]} ∅)
                  key q') ∧
    notify_var_last st1 = ∅.
Proof.
  eexists. split; [reflexivity|].
  apply (notify_add_keeps_other_queues
           (NamesList ["a.b"; "c.d"]) 7
           (mk (Val := string) {["a.b" := {[3 := NamesList ["a.b"]]}]} ∅)).
  reflexivity.
Defined.

Lemma notify_del_only_removes_own_queue_witness :
  ∃ st',
    notify_del (NamesList ["a.b"; "c.d"]) 7
      (mk (Val := string)
          {["a.b" := {[3 := NamesList ["a.b"]; 7 := NamesList ["a.b"]]}]} ∅)
    = Some st' ∧
    (∀ key q', q' ≠ 7 →
       registered st' key q' =
       registered (mk (Val := string)
          {["a.b" := {[3 := NamesList ["a.b"]; 7 := NamesList ["a.b"]]}]} ∅)
          key q') ∧
    (∀ key vn', registered st' key 7 = Some vn' →
       registered (mk (Val := string)
          {["a.b" := {[3 := NamesList ["a.b"]; 7 := NamesList ["a.b"]]}]} ∅)
          key 7 = Some vn') ∧
    dom (notify st') = dom ({["a.b" := {[3 := NamesList ["a.b"];
                                          7 := NamesList ["a.b"]]}]}
                             : gmap string (gmap nat var_names)) ∧
    notify_var_last st' = ∅.
Proof.
  eexists. split; [reflexivity|].
  exact (notify_del_only_removes_own_queue
           (NamesList ["a.b"; "c.d"]) 7
           (mk (Val := string)
               {["a.b" := {[3 := NamesList ["a.b"]; 7 := NamesList ["a.b"]]}]} ∅)
           _ eq_refl).
Defined.

Lemma notify_del_undoes_notify_add_witness :
  NoDup (omap state_var_name ["a.b"; "x"; "c.d.e"]) ∧
  ∃ st1 st2,
    notify_add (NamesList ["a.b"; "x"; "c.d.e"]) 7 (@init string) = Some st1 ∧
    notify_del (NamesList ["a.b"; "x"; "c.d.e"]) 7 st1 = Some st2 ∧
    (∀ key, registered st2 key 7 =
            if decide (key ∈ omap state_var_name ["a.b"; "x"; "c.d.e"]) then None
            else registered (@init string) key 7) ∧
    (∀ key q', q' ≠ 7 → registered st2 key q' = registered (@init string) key q').
Proof.
  assert (NoDup (omap state_var_name ["a.b"; "x"; "c.d.e"])) as Hnd.
  { apply (bool_decide_unpack _). vm_compute. exact I. }
  split; [exact Hnd|].
  exact (notify_del_undoes_notify_add ["a.b"; "x"; "c.d.e"] 7 init Hnd).
Defined.

Lemma notify_add_commutes_witness :
  3 ≠ 7 ∧
  notify_add (NamesList ["a.b"]) 3 (@init string)
    ≫= notify_add (NamesList ["a.b"; "c.d"]) 7 =
  notify_add (NamesList ["a.b"; "c.d"]) 7 (@init string)
    ≫= notify_add (NamesList ["a.b"]) 3.
Proof.
  split; [done|].
  by apply (notify_add_commutes (NamesList ["a.b"]) (NamesList ["a.b"; "c.d"]) 3 7 init).
Defined.

(** [light.kitchen] is registered; a batch with an attribute name and a
    name without separator is ignored. *)
Lemma update_ignores_unregistered_names_witness :
  (∀ k, k ∈ [("light.kitchen.brightness", "10"); ("kitchen", "on")].*1 →
        notify (mk (Val := string)
                   {["light.kitchen" := {[3 := NamesList ["light.kitchen"]]}]} ∅)
          !! k = None ∨
        (inv (mk (Val := string)
                 {["light.kitchen" := {[3 := NamesList ["light.kitchen"]]}]} ∅)
         ∧ count k ≠ 1)) ∧
  update [("light.kitchen.brightness", "10"); ("kitchen", "on")] "ctx"
         (mk (Val := string)
             {["light.kitchen" := {[3 := NamesList ["light.kitchen"]]}]} ∅)
  = (mk {["light.kitchen" := {[3 := NamesList ["light.kitchen"]]}]} ∅, []).
Proof.
  assert (inv (mk (Val := string)
                  {["light.kitchen" := {[3 := NamesList ["light.kitchen"]]}]} ∅))
    as Hinv.
  { apply (inv_notify_add (NamesList ["light.kitchen"]) 3 init);
      [apply inv_init|reflexivity]. }
  assert (∀ k, k ∈ [("light.kitchen.brightness", "10"); ("kitchen", "on")].*1 →
        notify (mk (Val := string)
                   {["light.kitchen" := {[3 := NamesList ["light.kitchen"]]}]} ∅)
          !! k = None ∨
        (inv (mk (Val := string)
                 {["light.kitchen" := {[3 := NamesList ["light.kitchen"]]}]} ∅)
         ∧ count k ≠ 1)) as Hk.
  { intros k Hin. right. split; [exact Hinv|].
    simpl in Hin. apply elem_of_cons in Hin as [->|Hin]; [by vm_compute|].
    apply list_elem_of_singleton in Hin as ->. by vm_compute. }
  split; [exact Hk|].
  exact (update_ignores_unregistered_names _ "ctx" _ Hk).
Defined.

Lemma attribute_subscription_gets_empty_mapping_witness :
  inv (@init string) ∧ count "light.kitchen.brightness" = 2 ∧
  state_var_name "light.kitchen.brightness" = Some "light.kitchen" ∧
  ∃ st1,
    notify_add (NamesList ["light.kitchen.brightness"]) 7 (@init string)
      = Some st1 ∧
    pushed_to 7 (update [("light.kitchen", "on")] "ctx" st1).2 =
      [Msg "state" ∅ "ctx"].
Proof.
  split_and!; [apply inv_init|reflexivity|reflexivity|].
  apply (attribute_subscription_gets_empty_mapping
           init "light.kitchen.brightness" "light.kitchen" 7 "on" "ctx");
    [apply inv_init|reflexivity|reflexivity].
Defined.

(** The cache has [light.hall] from an earlier update. *)
Lemma update_carries_last_value_of_sibling_witness :
  length (split "light.kitchen") = 2 ∧ length (split "light.hall") = 2 ∧
  "light.kitchen" ≠ "light.hall" ∧
  ∃ st1,
    notify_add (NamesList ["light.kitchen"; "light.hall"]) 7
      (mk (Val := string) ∅ {["light.hall" := "off"]}) = Some st1 ∧
    pushed_to 7 (update [("light.kitchen", "on")] "ctx" st1).2 =
      [Msg "state" {["light.kitchen" := "on"; "light.hall" := "off"]} "ctx"].
Proof.
  split_and!; [reflexivity|reflexivity|done|].
  exact (update_carries_last_value_of_sibling
           (mk (Val := string) ∅ {["light.hall" := "off"]})
           "light.kitchen" "light.hall" 7 "on" "ctx"
           eq_refl eq_refl ltac:(done)).
Defined.

Lemma update_records_after_last_removal_witness :
  length (split "light.kitchen") = 2 ∧
  notify (@init string) !! "light.kitchen" = None ∧
  ∃ st1 st2,
    notify_add (NamesList ["light.kitchen"]) 7 (@init string) = Some st1 ∧
    notify_del (NamesList ["light.kitchen"]) 7 st1 = Some st2 ∧
    notify st2 !! "light.kitchen" = Some ∅ ∧
    update [("light.kitchen", "on")] "ctx" st2 =
      (mk (notify st2) (<["light.kitchen" := "on"]> (notify_var_last (@init string))),
       []).
Proof.
  split_and!; [reflexivity|reflexivity|].
  apply (update_records_after_last_removal init "light.kitchen" 7 "on" "ctx");
    reflexivity.
Defined.

Lemma update_uses_request_list_of_last_name_witness :
  length (split "light.kitchen") = 2 ∧ length (split "light.hall") = 2 ∧
  "light.kitchen" ≠ "light.hall" ∧
  ∃ st1 st2,
    notify_add (NamesList ["light.kitchen"]) 7 (@init string) = Some st1 ∧
    notify_add (NamesList ["light.hall"]) 7 st1 = Some st2 ∧
    pushed_to 7 (update [("light.kitchen", "on"); ("light.hall", "off")]
                        "ctx" st2).2 =
      [Msg "state" {["light.hall" := "off"]} "ctx"].
Proof.
  split_and!; [reflexivity|reflexivity|done|].
  apply (update_uses_request_list_of_last_name
           init "light.kitchen" "light.hall" 7 "on" "off" "ctx");
    [reflexivity|reflexivity|done].
Defined.

Lemma set_writes_given_attributes_witness :
  length (split "light.kitchen") = 2 ∧
  ∃ written,
    set "light.kitchen" "on" (Some {["color" := "red"; "mode" := "a"]})
        ({["mode" := "b"]} : gmap string string)
    = AsyncSet "light.kitchen" "on" written ∧
    async_set_attributes
      (set "light.kitchen" "on" (Some {["color" := "red"; "mode" := "a"]})
           ({["mode" := "b"]} : gmap string string))
    = Some (default ∅ written) ∧
    ∀ x, default ∅ written !! x =
         match ({["mode" := "b"]} : gmap string string) !! x with
         | Some y => Some y
         | None =>
             default ∅ (Some ({["color" := "red"; "mode" := "a"]}
                                : gmap string string)) !! x
         end.
Proof.
  split; [reflexivity|].
  exact (set_writes_given_attributes
           "light.kitchen" "on" (Some {["color" := "red"; "mode" := "a"]})
           {["mode" := "b"]} eq_refl).
Defined.

Example set_keyword_attributes_win :
  set "light.kitchen" "on" (Some {["color" := "red"; "mode" := "a"]})
      ({["mode" := "b"]} : gmap string string)
  = AsyncSet "light.kitchen" "on" (Some {["color" := "red"; "mode" := "b"]}).
Proof. vm_compute. reflexivity. Qed.

Lemma set_and_set_new_agree_without_old_attributes_witness :
  let ha := mkHA (Val := string) (fun s => length (split s) =? 2)
                 (fun _ => None) [] in
  length (split "light.kitchen") = 2 ∧
  valid_entity_id ha "light.kitchen" = true ∧
  from_option attributes ∅ (states_get ha "light.kitchen") = ∅ ∧
  async_set_attributes (set "light.kitchen" "on" (Some {["color" := "red"]}) ∅) =
  async_set_attributes (set_new ha "light.kitchen" "on" (Some {["color" := "red"]})).
Proof.
  intros ha. split_and!; [reflexivity..|].
  exact (set_and_set_new_agree_without_old_attributes
           ha "light.kitchen" "on" (Some {["color" := "red"]})
           eq_refl eq_refl eq_refl).
Defined.

Lemma get_ignores_trailing_separator_witness :
  count "light.kitchen" = 1 ∧
  get (mkHA (Val := string) (fun _ => true)
         (fun eid => if decide (eid = "light.kitchen")
                     then Some (mkStateObj "light.kitchen" "on" ∅) else None)
         [])
      ("light.kitchen" +:+ ".")
  = get (mkHA (Val := string) (fun _ => true)
           (fun eid => if decide (eid = "light.kitchen")
                       then Some (mkStateObj "light.kitchen" "on" ∅) else None)
           [])
        "light.kitchen".
Proof.
  split; [reflexivity|].
  exact (get_ignores_trailing_separator _ "light.kitchen" eq_refl).
Defined.

Example get_examples :
  let ha := mkHA (Val := string) (fun s => length (split s) =? 2)
              (fun eid => if decide (eid = "light.kitchen")
                          then Some (mkStateObj "light.kitchen" "on"
                                                {["brightness" := "10"]})
                          else None)
              [] in
  get ha "light.kitchen" = Some "on" ∧
  get ha "light.kitchen.brightness" = Some "10" ∧
  get ha "light.kitchen.color" = None ∧
  get ha "light.kitchen." = Some "on" ∧
  get ha "light.hall" = None ∧
  get ha "light" = None ∧
  get ha "light.kitchen.brightness.x" = None.
Proof. by vm_compute. Qed.


Example exist_examples :
  let ha := mkHA (Val := string) (fun _ => true)
              (fun eid => if decide (eid = "light.kitchen")
                          then Some (mkStateObj "light.kitchen" "on"
                                       {["brightness" := "10"; "color" := "None"]})
                          else None)
              [] in
  let is_none := fun v => String.eqb v "None" in
  exist is_none ha "light.kitchen" = Some true ∧
  exist is_none ha "light.kitchen.brightness" = Some true ∧
  exist is_none ha "light.kitchen.color" = Some false ∧
  exist is_none ha "light.kitchen.mode" = Some false ∧
  exist is_none ha "light.hall" = None ∧
  exist is_none ha "light" = Some false ∧
  exist is_none ha "a.b.c.d" = Some false.
Proof. by vm_compute. Qed.

Lemma completions_of_entity_and_separator_witness :
  let ha := mkHA (Val := string) (fun _ => true)
              (fun eid => if decide (eid = "light.kitchen")
                          then Some (mkStateObj "light.kitchen" "on"
                                       {["Brightness" := "10"; "color" := "red"]})
                          else None)
              [] in
  count "light.kitchen" = 1 ∧
  states_get ha "light.kitchen"
  = Some (mkStateObj "light.kitchen" "on" {["Brightness" := "10"; "color" := "red"]}) ∧
  ("light.kitchen.Brightness" ∈
     completions ascii_lower ha ("light.kitchen" +:+ ".") ↔
   ∃ attr, is_Some (({["Brightness" := "10"; "color" := "red"]}
                       : gmap string string) !! attr) ∧
           "light.kitchen.Brightness" = "light.kitchen" +:+ "." +:+ attr).
Proof.
  intros ha. split_and!; [reflexivity..|].
  exact (completions_of_entity_and_separator
           ascii_lower ha "light.kitchen" _ "light.kitchen.Brightness"
           eq_refl eq_refl).
Defined.

Example completions_of_entity_and_separator_run :
  completions ascii_lower (mkHA (Val := string) (fun _ => true)
                 (fun eid => if decide (eid = "light.kitchen")
                             then Some (mkStateObj "light.kitchen" "on"
                                          {["Brightness" := "10"; "color" := "red"]})
                             else None)
                 [])
              "light.kitchen."
  = {["light.kitchen.Brightness"; "light.kitchen.color"]}.
Proof. vm_compute. reflexivity. Qed.

End LawScenarios.
